(** * Token emission calculator: cap schedule and emission simulator

    Shallow embedding of [app.py] (constant hard cap) and [app2.py]
    (optionally growing hard cap) and the properties of their emission
    recurrence.

    Numbers.  The scripts compute with numpy [float64] values.  They are
    modelled by [float64] below: an exact real number or one of the three
    IEEE special values that numpy produces instead of raising (a division
    by zero gives an infinity or NaN together with a warning, never an
    exception).  Rounding, overflow and the sign of zero are abstracted
    away: arithmetic on finite values is exact, and a zero divisor is the
    positive zero that an exactly cancelling sum produces.

    Arrays.  numpy arrays are lists; reading and writing an index outside
    the array raises [IndexError] in Python, which is the [None] of the
    option monad here.

    Inputs.  The scripts read their parameters from sidebar widgets into
    module-level globals; here they are the fields of a configuration
    record passed to every function.  A TVL trajectory is a function of
    one day; numpy applies it to the array [epochs] element by element. *)

From Stdlib Require Import Reals Lra Lia.
From stdpp Require Import base option list.

(** ** numpy float64 values *)

Inductive float64 : Type :=
  | Fin (x : R)
  | PInf
  | NInf
  | NaN.

Declare Scope f64_scope.
Delimit Scope f64_scope with f64.
Bind Scope f64_scope with float64.

Module F64.

(** [signed_inf s]: the infinity of sign [s] ([true] is [+]). *)
Definition signed_inf (s : bool) : float64 := if s then PInf else NInf.

(** An infinity of sign [s] times (or a finite divided by [+0], with
    [s = true]) the finite [x]: the sign follows [x], and [x = 0] is the
    invalid operation. *)
Definition scale_inf (s : bool) (x : R) : float64 :=
  if Rlt_dec 0 x then signed_inf s
  else if Rlt_dec x 0 then signed_inf (negb s)
  else NaN.

Definition neg (a : float64) : float64 :=
  match a with
  | Fin x => Fin (- x)
  | PInf => NInf
  | NInf => PInf
  | NaN => NaN
  end.

Definition add (a b : float64) : float64 :=
  match a, b with
  | NaN, _ | _, NaN => NaN
  | Fin x, Fin y => Fin (x + y)
  | PInf, NInf | NInf, PInf => NaN
  | PInf, _ | _, PInf => PInf
  | NInf, _ | _, NInf => NInf
  end.

Definition sub (a b : float64) : float64 := add a (neg b).

Definition mul (a b : float64) : float64 :=
  match a, b with
  | NaN, _ | _, NaN => NaN
  | Fin x, Fin y => Fin (x * y)
  | PInf, Fin y | Fin y, PInf => scale_inf true y
  | NInf, Fin y | Fin y, NInf => scale_inf false y
  | PInf, PInf | NInf, NInf => PInf
  | PInf, NInf | NInf, PInf => NInf
  end.

Definition div (a b : float64) : float64 :=
  match a, b with
  | NaN, _ | _, NaN => NaN
  | Fin x, Fin y => if Req_dec_T y 0 then scale_inf true x else Fin (x / y)
  | Fin _, (PInf | NInf) => Fin 0
  | PInf, Fin y => if Rlt_dec y 0 then NInf else PInf
  | NInf, Fin y => if Rlt_dec y 0 then PInf else NInf
  | (PInf | NInf), (PInf | NInf) => NaN
  end.

(** The comparison [a < b]: false as soon as one side is NaN. *)
Definition ltb (a b : float64) : bool :=
  match a, b with
  | NaN, _ | _, NaN => false
  | Fin x, Fin y => if Rlt_dec x y then true else false
  | NInf, (Fin _ | PInf) => true
  | Fin _, PInf => true
  | _, _ => false
  end.

(** The comparison [a <= b] as a proposition. *)
Definition le (a b : float64) : Prop :=
  match a, b with
  | NaN, _ | _, NaN => False
  | Fin x, Fin y => (x <= y)%R
  | NInf, _ => True
  | _, PInf => True
  | _, _ => False
  end.

(** Python's builtin [min(a, b)]: [b] when [b < a], otherwise [a]
    (so a NaN first argument is returned as it is). *)
Definition py_min (a b : float64) : float64 := if ltb b a then b else a.

(** [np.log], [np.exp], [np.sin]. *)
Definition log (a : float64) : float64 :=
  match a with
  | Fin x => if Rlt_dec 0 x then Fin (ln x)
             else if Rlt_dec x 0 then NaN else NInf
  | PInf => PInf
  | NInf | NaN => NaN
  end.

Definition exp (a : float64) : float64 :=
  match a with
  | Fin x => Fin (Rtrigo_def.exp x)
  | PInf => PInf
  | NInf => Fin 0
  | NaN => NaN
  end.

Definition sin (a : float64) : float64 :=
  match a with
  | Fin x => Fin (Rtrigo_def.sin x)
  | _ => NaN
  end.

(** The comparison [a < b] as a proposition. *)
Definition lt (a b : float64) : Prop := ltb a b = true.

End F64.

Infix "+" := F64.add : f64_scope.
Infix "-" := F64.sub : f64_scope.
Infix "*" := F64.mul : f64_scope.
Infix "/" := F64.div : f64_scope.
Notation "- x" := (F64.neg x) : f64_scope.
Infix "<=" := F64.le : f64_scope.
Infix "<" := F64.lt : f64_scope.

#[global] Arguments F64.add : simpl never.
#[global] Arguments F64.sub : simpl never.
#[global] Arguments F64.mul : simpl never.
#[global] Arguments F64.div : simpl never.
#[global] Arguments F64.neg : simpl never.
#[global] Arguments F64.py_min : simpl never.

(** ** numpy arrays and Python loops *)

(** [a[i] = v]: raises [IndexError] outside the array. *)
Definition set_item (a : list float64) (i : nat) (v : float64)
  : option (list float64) :=
  if decide (i < length a) then Some (<[i:=v]> a) else None.

(** [np.zeros_like(a)] and [np.full_like(a, v)]. *)
Definition full_like (a : list float64) (v : float64) : list float64 :=
  (λ _, v) <$> a.
Definition zeros_like (a : list float64) : list float64 :=
  full_like a (Fin 0).

(** [for t in ts: st = body(st, t)], stopping at the first exception. *)
Fixpoint for_in {S : Type} (body : S → nat → option S) (ts : list nat)
    (st : S) : option S :=
  match ts with
  | [] => Some st
  | t :: ts' => st' ← body st t; for_in body ts' st'
  end.

(** The two arrays that the loop of [calculate_emissions] updates in
    place. *)
Record Arrays : Type := MkArrays {
  minted_so_far : list float64;
  emissions : list float64
}.

(** ** Sidebar inputs shared by the two scripts

    The values the widgets of both scripts return (Python floats and
    ints), read as module-level globals by the functions below. *)
Record Params : Type := MkParams {
  start_tvl : R;
  delta_max : R;
  alpha : R;
  years : nat;
  growth_rate : R;
  sin_growth_rate : R;
  amplitude : R;
  period : nat;
  exp_growth_rate : R;
  s_curve_midpoint : nat;
  s_curve_steepness : R;
  s_curve_max_tvl : R
}.

(** [days = 365 * years] and [epochs = np.linspace(0, days-1, days)]: one
    point per day, [0, 1, ..., days-1]. *)
Definition days (p : Params) : nat := 365 * years p.
Definition day (k : nat) : float64 := Fin (INR k).
Definition epochs (p : Params) : list float64 := day <$> seq 0 (days p).

(** ** TVL trajectory functions (the same text in both scripts)

    Each is applied to the whole array [epochs]; numpy evaluates it
    element by element, which is the function of one day given here. *)
Definition increasing_tvl (p : Params) (t : float64) : float64 :=
  (Fin (start_tvl p) * (Fin 1 + Fin (growth_rate p) * t))%f64.

Definition sinusoidal_increasing_tvl (p : Params) (t : float64) : float64 :=
  let trend := (Fin (start_tvl p) * (Fin 1 + Fin (sin_growth_rate p) * t))%f64 in
  let seasonal :=
    (Fin (amplitude p) * F64.sin (Fin 2 * Fin PI * t / Fin (INR (period p))))%f64 in
  (trend + seasonal)%f64.

Definition exponential_tvl (p : Params) (t : float64) : float64 :=
  (Fin (start_tvl p) * F64.exp (Fin (exp_growth_rate p) * t))%f64.

Definition s_curve_tvl (p : Params) (t : float64) : float64 :=
  (Fin (start_tvl p)
   + (Fin (s_curve_max_tvl p) - Fin (start_tvl p))
     / (Fin 1 + F64.exp (Fin (- s_curve_steepness p)
                         * (t - Fin (INR (s_curve_midpoint p))))))%f64.

(** ** app.py: constant hard cap *)
Module App.

Record Config : Type := MkConfig {
  cap : R;
  params :> Params
}.

(** One iteration of the loop of [calculate_emissions], for day [t].
    ([len(epochs) - 1] is not negative inside the loop, where the array
    has at least one entry.) *)
Definition loop_body (cfg : Config) (tvl_values : list float64)
    (st : Arrays) (t : nat) : option Arrays :=
  m ← minted_so_far st !! t;
  (* Cap remaining factor *)
  let g_cap := (Fin 1 - m / Fin (cap cfg))%f64 in
  (* Inverse TVL factor *)
  tvl ← tvl_values !! t;
  let f_tvl := (Fin 1 / (Fin 1 + Fin (alpha cfg) * tvl))%f64 in
  (* Provisional emission *)
  let e_t := (Fin (delta_max cfg) * g_cap * f_tvl)%f64 in
  (* Hard cap enforcement *)
  let e_actual := F64.py_min e_t (Fin (cap cfg) - m)%f64 in
  emissions' ← set_item (emissions st) t e_actual;
  (* Update minted so far for next epoch *)
  if decide (t < length (epochs cfg) - 1) then
    minted' ← set_item (minted_so_far st) (t + 1) (m + e_actual)%f64;
    Some (MkArrays minted' emissions')
  else Some (MkArrays (minted_so_far st) emissions').

(** [calculate_emissions(tvl_trajectory)]: returns
    [(tvl_values, emissions, minted_so_far)]. *)
Definition calculate_emissions (cfg : Config)
    (tvl_trajectory : float64 → float64)
  : option (list float64 * list float64 * list float64) :=
  let tvl_values := tvl_trajectory <$> epochs cfg in
  let minted_so_far0 := zeros_like (epochs cfg) in
  let emissions0 := zeros_like (epochs cfg) in
  st ← for_in (loop_body cfg tvl_values) (seq 0 (length (epochs cfg)))
              (MkArrays minted_so_far0 emissions0);
  Some (tvl_values, emissions st, minted_so_far st).

End App.

Coercion App.params : App.Config >-> Params.

(** ** app2.py: hard cap that may grow logarithmically *)
Module App2.

Record Config : Type := MkConfig {
  initial_cap : R;
  cap_growth_enabled : bool;
  cap_growth_rate : R;
  max_cap : R;
  params :> Params
}.

(** The growing cap on one day [t]:
    [initial_cap + (max_cap - initial_cap) * np.log(1 + cap_growth_rate * t)
                   / np.log(1 + cap_growth_rate * days)]. *)
Definition growing_cap (cfg : Config) (t : float64) : float64 :=
  (Fin (initial_cap cfg)
   + (Fin (max_cap cfg) - Fin (initial_cap cfg))
     * F64.log (Fin 1 + Fin (cap_growth_rate cfg) * t)
     / F64.log (Fin 1 + Fin (cap_growth_rate cfg) * Fin (INR (days cfg))))%f64.

(** [calculate_hard_cap(t)] on an array [t] of days. *)
Definition calculate_hard_cap (cfg : Config) (t : list float64)
  : list float64 :=
  if negb (cap_growth_enabled cfg) then full_like t (Fin (initial_cap cfg))
  else growing_cap cfg <$> t.

Definition loop_body (cfg : Config) (tvl_values cap_values : list float64)
    (st : Arrays) (t : nat) : option Arrays :=
  (* Cap remaining factor - use the current day's cap value *)
  current_cap ← cap_values !! t;
  m ← minted_so_far st !! t;
  let g_cap := (Fin 1 - m / current_cap)%f64 in
  (* Inverse TVL factor *)
  tvl ← tvl_values !! t;
  let f_tvl := (Fin 1 / (Fin 1 + Fin (alpha cfg) * tvl))%f64 in
  (* Provisional emission *)
  let e_t := (Fin (delta_max cfg) * g_cap * f_tvl)%f64 in
  (* Hard cap enforcement - use the current day's cap *)
  let e_actual := F64.py_min e_t (current_cap - m)%f64 in
  emissions' ← set_item (emissions st) t e_actual;
  (* Update minted so far for next epoch *)
  if decide (t < length (epochs cfg) - 1) then
    minted' ← set_item (minted_so_far st) (t + 1) (m + e_actual)%f64;
    Some (MkArrays minted' emissions')
  else Some (MkArrays (minted_so_far st) emissions').

(** [calculate_emissions(tvl_trajectory)]: returns
    [(tvl_values, emissions, minted_so_far, cap_values)]. *)
Definition calculate_emissions (cfg : Config)
    (tvl_trajectory : float64 → float64)
  : option (list float64 * list float64 * list float64 * list float64) :=
  let tvl_values := tvl_trajectory <$> epochs cfg in
  let cap_values := calculate_hard_cap cfg (epochs cfg) in
  let minted_so_far0 := zeros_like (epochs cfg) in
  let emissions0 := zeros_like (epochs cfg) in
  st ← for_in (loop_body cfg tvl_values cap_values)
              (seq 0 (length (epochs cfg)))
              (MkArrays minted_so_far0 emissions0);
  Some (tvl_values, emissions st, minted_so_far st, cap_values).

End App2.

Coercion App2.params : App2.Config >-> Params.

(** ** The recurrence that the loops compute

    [e_actual_of] is the right-hand side of one iteration; [minted_at] and
    [emission_at] are the values the arrays hold on day [t] once the loop
    is over. *)
Section Recurrence.

Variables (delta alph : R) (capf tvlf : nat → float64).

Definition g_cap_of (current_cap m : float64) : float64 :=
  (Fin 1 - m / current_cap)%f64.

Definition f_tvl_of (tvl : float64) : float64 :=
  (Fin 1 / (Fin 1 + Fin alph * tvl))%f64.

Definition e_t_of (current_cap m tvl : float64) : float64 :=
  (Fin delta * g_cap_of current_cap m * f_tvl_of tvl)%f64.

Definition e_actual_of (current_cap m tvl : float64) : float64 :=
  F64.py_min (e_t_of current_cap m tvl) (current_cap - m)%f64.

Fixpoint minted_at (t : nat) : float64 :=
  match t with
  | 0 => Fin 0
  | S k => (minted_at k + e_actual_of (capf k) (minted_at k) (tvlf k))%f64
  end.

Definition emission_at (t : nat) : float64 :=
  e_actual_of (capf t) (minted_at t) (tvlf t).

(** What one iteration does to the two arrays, as both loop bodies do
    it. *)
Definition step_arrays (n : nat) (st : Arrays) (t : nat) (m : float64)
  : Arrays :=
  let e_actual := e_actual_of (capf t) m (tvlf t) in
  MkArrays
    (if decide (t < n - 1)
     then <[t + 1 := (m + e_actual)%f64]> (minted_so_far st)
     else minted_so_far st)
    (<[t := e_actual]> (emissions st)).

(** The arrays after the iterations for days [0 .. k-1]. *)
Definition filled (n k : nat) (st : Arrays) : Prop :=
  length (minted_so_far st) = n ∧ length (emissions st) = n ∧
  (∀ j, j ≤ k → j < n → minted_so_far st !! j = Some (minted_at j)) ∧
  (∀ j, j < k → emissions st !! j = Some (emission_at j)).

End Recurrence.


(** The recurrence on real numbers, when no special value arises. *)
Definition e_real (delta alph c m v : R) : R :=
  Rmin (delta * (1 - m / c) * (1 / (1 + alph * v))) (c - m).

(** ** The sequences the two scripts work on *)

(** app.py: the cap of every day is the scalar [cap]. *)
Definition App_minted_at (cfg : App.Config) (traj : float64 → float64)
  : nat → float64 :=
  minted_at (delta_max cfg) (alpha cfg) (λ _, Fin (App.cap cfg))
            (λ t, traj (day t)).

Definition App_emission_at (cfg : App.Config) (traj : float64 → float64)
  : nat → float64 :=
  emission_at (delta_max cfg) (alpha cfg) (λ _, Fin (App.cap cfg))
              (λ t, traj (day t)).

(** app2.py: [cap_values[t]] for a day [t] of the grid. *)
Definition cap_on (cfg : App2.Config) : nat → float64 :=
  if negb (App2.cap_growth_enabled cfg)
  then λ _, Fin (App2.initial_cap cfg)
  else λ t, App2.growing_cap cfg (day t).

Definition App2_minted_at (cfg : App2.Config) (traj : float64 → float64)
  : nat → float64 :=
  minted_at (delta_max cfg) (alpha cfg) (cap_on cfg) (λ t, traj (day t)).

Definition App2_emission_at (cfg : App2.Config) (traj : float64 → float64)
  : nat → float64 :=
  emission_at (delta_max cfg) (alpha cfg) (cap_on cfg) (λ t, traj (day t)).

(** The growing cap as a real number, for a positive growth rate. *)
Definition cap_real (cfg : App2.Config) (t : nat) : R :=
  (App2.initial_cap cfg
   + (App2.max_cap cfg - App2.initial_cap cfg)
     * ln (1 + App2.cap_growth_rate cfg * INR t)
     / ln (1 + App2.cap_growth_rate cfg * INR (days cfg)))%R.

(** ** Properties of a run *)

(** Every cap of the schedule is a positive number. *)
Definition positive_schedule (caps : list float64) : Prop :=
  ∀ c, c ∈ caps → ∃ x, c = Fin x ∧ (0 < x)%R.

(** The bounds the sidebar of app2.py puts on the cap inputs:
    [min_value=0.0] for the growth rate and [min_value=initial_cap] for
    the maximum cap. *)
Definition cap_inputs_in_range (cfg : App2.Config) : Prop :=
  (0 <= App2.cap_growth_rate cfg)%R ∧
  (App2.initial_cap cfg <= App2.max_cap cfg)%R.

(** The TVL of every day of the grid is a number [v] with:
    [1 + alpha * v] not zero; [1 + alpha * v] positive; [v] not negative. *)
Definition regular_tvl (p : Params) (traj : float64 → float64) : Prop :=
  ∀ t, t < days p → ∃ v, traj (day t) = Fin v ∧ (1 + alpha p * v)%R ≠ 0%R.

Definition positive_damping (p : Params) (traj : float64 → float64) : Prop :=
  ∀ t, t < days p → ∃ v, traj (day t) = Fin v ∧ (0 < 1 + alpha p * v)%R.

Definition nonneg_tvl (p : Params) (traj : float64 → float64) : Prop :=
  ∀ t, t < days p → ∃ v, traj (day t) = Fin v ∧ (0 <= v)%R.

(** [minted_cumulative[t] <= cap[t]] on every day, and on the last day
    also once the last emission is added. *)
Definition cap_respected (caps minted em : list float64) : Prop :=
  (∀ t m c, minted !! t = Some m → caps !! t = Some c → (m <= c)%f64) ∧
  (∀ m e c, last minted = Some m → last em = Some e → last caps = Some c →
            (m + e <= c)%f64).

(** [emission[t] >= 0] on every day. *)
Definition emissions_nonneg (em : list float64) : Prop :=
  ∀ t e, em !! t = Some e → (Fin 0 <= e)%f64.

(** [minted_cumulative[t] <= minted_cumulative[t+1]] whenever [t+1 < days]. *)
Definition non_decreasing (minted : list float64) : Prop :=
  ∀ t m m', minted !! t = Some m → minted !! (S t) = Some m' → (m <= m')%f64.

(** [emission[t] <= bound] on every day. *)
Definition emissions_at_most (bound : R) (em : list float64) : Prop :=
  ∀ t e, em !! t = Some e → (e <= Fin bound)%f64.

(** What is said of the growing cap: it starts at [initial_cap], never
    decreases, stays at or above [initial_cap] and at or below [max_cap],
    and, when [strict] holds, strictly below [max_cap]. *)
Definition growing_cap_shape (strict : Prop) (cfg : App2.Config)
    (caps : list float64) : Prop :=
  (0 < days cfg → caps !! 0 = Some (Fin (App2.initial_cap cfg))) ∧
  (∀ t t' c c', t ≤ t' → caps !! t = Some c → caps !! t' = Some c' →
                (c <= c')%f64) ∧
  (∀ t c, caps !! t = Some c →
          (Fin (App2.initial_cap cfg) <= c)%f64 ∧
          (c <= Fin (App2.max_cap cfg))%f64 ∧
          (strict → (c < Fin (App2.max_cap cfg))%f64)).

(** A configuration that a validating constructor would refuse. *)
Definition invalid_config (cfg : App2.Config) : Prop :=
  (alpha cfg <= 0)%R ∨ (App2.initial_cap cfg <= 0)%R ∨
  (App2.max_cap cfg < App2.initial_cap cfg)%R.

(** ** Concrete inputs *)

(** The default values of the sidebar widgets. *)
Definition default_params : Params := {|
  start_tvl := 50e6;
  delta_max := 100e6;
  alpha := 1e-5;
  years := 10;
  growth_rate := 0.01;
  sin_growth_rate := 0.005;
  amplitude := 2e7;
  period := 365;
  exp_growth_rate := 0.001;
  s_curve_midpoint := 1825;
  s_curve_steepness := 0.005;
  s_curve_max_tvl := 5e9
|}.

Definition with_years (y : nat) (p : Params) : Params :=
  MkParams (start_tvl p) (delta_max p) (alpha p) y (growth_rate p)
    (sin_growth_rate p) (amplitude p) (period p) (exp_growth_rate p)
    (s_curve_midpoint p) (s_curve_steepness p) (s_curve_max_tvl p).

(** Scenario A: [cap=2.5e9, start_tvl=50e6, delta_max=100e6, alpha=1e-5,
    years=1], linear growth rate [0.01]. *)
Definition scenario_A : App.Config :=
  App.MkConfig 2.5e9 (with_years 1 default_params).

(** The defaults of app2.py, growth enabled. *)
Definition default_growing : App2.Config :=
  App2.MkConfig 2.5e9 true 0.1 5e9 default_params.

(** Scenario C: [initial_cap=1000, max_cap=2000, rate=0.1, days=3650]. *)
Definition scenario_C : App2.Config :=
  App2.MkConfig 1000 true 0.1 2000 default_params.

(** Growth enabled with the growth rate at its lower bound [0.0]. *)
Definition zero_rate : App2.Config :=
  App2.MkConfig 2.5e9 true 0 5e9 default_params.

(** Growth enabled with the maximum cap at its lower bound, the initial
    cap. *)
Definition flat_growth : App2.Config :=
  App2.MkConfig 1000 true 0.1 1000 default_params.

(** Small numbers: [cap=1000, delta_max=10, alpha=1, years=1]. *)
Definition small_params : Params :=
  MkParams 1 10 1 1 0.01 0.005 2e7 365 0.001 1825 0.005 5e9.

Definition small : App.Config := App.MkConfig 1000 small_params.

(** The same with [cap=1], which the first day's emission exhausts. *)
Definition tiny_cap : App.Config := App.MkConfig 1 small_params.

(** The sidebar's defaults with [start_tvl] at its lower bound [1.0], a
    seasonal period of 36 days and one simulated year. *)
Definition seasonal : App.Config :=
  App.MkConfig 2.5e9
    (MkParams 1 100e6 1e-5 1 0.01 0.005 2e7 36 0.001 1825 0.005 5e9).

(** A TVL that is negative throughout, and one that falls from [1] on
    day 0 to [-1] on day 1. *)
Definition sunk_tvl (t : float64) : float64 := Fin (-2).
Definition falling_tvl (t : float64) : float64 := (Fin 1 - Fin 2 * t)%f64.

(** A configuration with [alpha = 0], a negative cap and a maximum cap
    below the initial one; growth disabled. *)
Definition refused_params : Params :=
  MkParams 1 10 0 1 0.01 0.005 2e7 365 0.001 1825 0.005 5e9.

Definition refused : App2.Config :=
  App2.MkConfig (-5) false 0.1 (-10) refused_params.

(** * Further definitions: the callers and the properties of the runs *)

From Stdlib Require String.
Import String.StringSyntax.
Delimit Scope string_scope with string.

(** The real number a finite value holds ([0] for the special values). *)
Definition to_R (a : float64) : R :=
  match a with Fin x => x | _ => 0%R end.

(** The sum of an array, added up from the left starting at [0.0]. *)
Definition sum_f64 (l : list float64) : float64 :=
  fold_left F64.add l (Fin 0).

(** ** The bounds of the sidebar widgets ([min_value], [max_value]) *)
Definition sidebar_bounds (p : Params) : Prop :=
  (1 <= start_tvl p)%R ∧ (1 <= delta_max p)%R ∧ (1e-10 <= alpha p)%R ∧
  1 ≤ years p ≤ 20 ∧
  (0.001 <= growth_rate p <= 0.05)%R ∧
  (0.001 <= sin_growth_rate p <= 0.05)%R ∧
  (1 <= amplitude p)%R ∧ 30 ≤ period p ≤ 730 ∧
  (0.0001 <= exp_growth_rate p <= 0.01)%R ∧
  100 ≤ s_curve_midpoint p ≤ 3650 ∧
  (0.001 <= s_curve_steepness p <= 0.05)%R ∧
  (start_tvl p <= s_curve_max_tvl p)%R.

(** ** The list of trajectories and the loop that runs them

    [trajectories] pairs each TVL function with its label; the plotting
    loop calls [calculate_emissions] on each in turn (the label is not
    used in the loop).  [run_trajectories] is that sequence of calls,
    returning what each call returned. *)
Definition trajectories (p : Params)
  : list ((float64 → float64) * String.string) :=
  [ (increasing_tvl p, "Linear Growth"%string);
    (sinusoidal_increasing_tvl p, "Sinusoidal Growth"%string);
    (exponential_tvl p, "Exponential Growth"%string);
    (s_curve_tvl p, "S-Curve Growth"%string) ].

Definition App_run_trajectories (cfg : App.Config)
  : option (list (list float64 * list float64 * list float64)) :=
  mapM (λ tl, App.calculate_emissions cfg tl.1) (trajectories cfg).

Definition App2_run_trajectories (cfg : App2.Config)
  : option (list (list float64 * list float64 * list float64 * list float64)) :=
  mapM (λ tl, App2.calculate_emissions cfg tl.1) (trajectories cfg).

(** ** Properties of the returned arrays *)

(** [minted_so_far[t]] is the sum of the emissions of the days before
    [t]. *)
Definition cumulative (em ms : list float64) : Prop :=
  ∀ t m, ms !! t = Some m → m = sum_f64 (take t em).

(** Every emission is the clamped provisional emission computed from
    that day's cap, cumulative mint and TVL. *)
Definition follows_formula (delta alph : R)
    (caps tvl em ms : list float64) : Prop :=
  ∀ t c v m e,
    caps !! t = Some c → tvl !! t = Some v → ms !! t = Some m →
    em !! t = Some e →
    e = F64.py_min (Fin delta * (Fin 1 - m / c) * (Fin 1 / (Fin 1 + Fin alph * v)))
                   (c - m)%f64.

(** The clamp never binds: every emission is the provisional emission
    [delta_max * g_cap * f_tvl] itself. *)
Definition unclamped (delta alph : R) (caps tvl em ms : list float64) : Prop :=
  ∀ t c v m e,
    caps !! t = Some c → tvl !! t = Some v → ms !! t = Some m →
    em !! t = Some e →
    e = (Fin delta * (Fin 1 - m / c) * (Fin 1 / (Fin 1 + Fin alph * v)))%f64.

(** Every entry is a number in [[0, bound)]. *)
Definition stays_below (bound : R) (l : list float64) : Prop :=
  ∀ t m, l !! t = Some m → ∃ x, m = Fin x ∧ (0 <= x < bound)%R.

(** Every entry is strictly positive. *)
Definition all_positive (l : list float64) : Prop :=
  ∀ t e, l !! t = Some e → (Fin 0 < e)%f64.

(** Entry by entry, the first array is at most the second. *)
Definition pointwise_le (l1 l2 : list float64) : Prop :=
  ∀ t a b, l1 !! t = Some a → l2 !! t = Some b → (a <= b)%f64.

(** From day [t0] on the cumulative mint sits at the cap and nothing is
    emitted. *)
Definition exhausted_from (t0 : nat) (cap : R) (em ms : list float64) : Prop :=
  ∀ t, t0 ≤ t →
    (∀ m, ms !! t = Some m → m = Fin cap) ∧
    (∀ e, em !! t = Some e → e = Fin 0).

(** Every emission is at most [delta_max / (1 + alpha * tvl[t])]. *)
Definition damped (delta alph : R) (tvl em : list float64) : Prop :=
  ∀ t v e, tvl !! t = Some v → em !! t = Some e →
    (e <= Fin delta / (Fin 1 + Fin alph * v))%f64.

(** All the invariants of a run at once. *)
Definition healthy_run (delta : R) (caps em ms : list float64) : Prop :=
  cap_respected caps ms em ∧ emissions_nonneg em ∧
  emissions_at_most delta em ∧ non_decreasing ms.

(** The headroom [cap - minted[t]] when the clamp never binds: the cap
    times the product of the daily factors
    [1 - delta_max / (cap * (1 + alpha * tvl[k]))]. *)
Fixpoint headroom (delta alph c : R) (v : nat → R) (t : nat) : R :=
  match t with
  | 0 => c
  | S k => (headroom delta alph c v k
            * (1 - delta / (c * (1 + alph * v k))))%R
  end.

(** The growing cap is strictly increasing along the grid, and its daily
    increments never grow. *)
Definition strictly_increasing (l : list float64) : Prop :=
  ∀ t t' a b, t < t' → l !! t = Some a → l !! t' = Some b → (a < b)%f64.

Definition increments_shrink (l : list float64) : Prop :=
  ∀ t a b c, l !! t = Some a → l !! (S t) = Some b → l !! (S (S t)) = Some c →
    (c - b <= b - a)%f64.

(** The emissions of the whole run add up to at most the last day's cap. *)
Definition total_within (caps em : list float64) : Prop :=
  ∀ c, last caps = Some c → (sum_f64 em <= c)%f64.

(** ** Further concrete inputs *)

(** [cap=1, delta_max=10, alpha=1, start_tvl=1], one year: the first
    provisional emission, [10/2], is above the cap. *)
Definition quick : App.Config :=
  App.MkConfig 1 (MkParams 1 10 1 1 0.01 0.005 2e7 365 0.001 1825 0.005 5e9).

(** The sidebar's defaults with [delta_max = 0]. *)
Definition idle_params : Params :=
  MkParams 50e6 0 1e-5 10 0.01 0.005 2e7 365 0.001 1825 0.005 5e9.
Definition idle : App.Config := App.MkConfig 2.5e9 idle_params.
Definition idle_growing : App2.Config :=
  App2.MkConfig 2.5e9 true 0.1 5e9 idle_params.

(** The sidebar's defaults of app.py. *)
Definition default_basic : App.Config := App.MkConfig 2.5e9 default_params.

(** The cumulative mint is the cap minus the headroom product, for the
    TVL values [v]. *)
Definition matches_headroom (delta alph cap : R) (v : nat → R)
    (ms : list float64) : Prop :=
  ∀ t m, ms !! t = Some m → m = Fin (cap - headroom delta alph cap v t).

(** The linear trajectory of a configuration lifted by one unit. *)
Definition lifted_tvl (p : Params) (t : float64) : float64 :=
  (increasing_tvl p t + Fin 1)%f64.

(** The linear trend of the sinusoidal trajectory and the middle of the
    S-curve, as real numbers. *)
Definition sin_trend (p : Params) (x : R) : R :=
  (start_tvl p * (1 + sin_growth_rate p * x))%R.

(** The invariants of one result of the runner, for each script. *)
Definition App_healthy (cfg : App.Config)
    (r : list float64 * list float64 * list float64) : Prop :=
  healthy_run (delta_max cfg) (full_like (epochs cfg) (Fin (App.cap cfg)))
    r.1.2 r.2.

Definition App2_healthy (cfg : App2.Config)
    (r : list float64 * list float64 * list float64 * list float64) : Prop :=
  healthy_run (delta_max cfg) r.2 r.1.1.2 r.1.2.

(** [final_cap = cap_values[-1]], which the script shows as "Final Hard
    Cap" when cap growth is enabled ([IndexError] on an empty array). *)
Definition final_cap (cfg : App2.Config) : option float64 :=
  last (App2.calculate_hard_cap cfg (epochs cfg)).

(** The same inputs with the cap and [delta_max] both multiplied by [k]
    (the same amounts in another unit). *)
Definition rescale (k : R) (cfg : App.Config) : App.Config :=
  App.MkConfig (k * App.cap cfg)
    (MkParams (start_tvl cfg) (k * delta_max cfg) (alpha cfg) (years cfg)
       (growth_rate cfg) (sin_growth_rate cfg) (amplitude cfg) (period cfg)
       (exp_growth_rate cfg) (s_curve_midpoint cfg) (s_curve_steepness cfg)
       (s_curve_max_tvl cfg)).

(** An array multiplied by the scalar [k]. *)
Definition scaled (k : R) (l : list float64) : list float64 :=
  (λ x, (Fin k * x)%f64) <$> l.
(** * Proofs *)

(** ** Arrays and loops *)

Lemma length_full_like a v : length (full_like a v) = length a.
Proof. unfold full_like. apply length_fmap. Qed.

Lemma lookup_full_like a v i :
  i < length a → full_like a v !! i = Some v.
Proof.
  intros Hi. unfold full_like. rewrite list_lookup_fmap.
  destruct (lookup_lt_is_Some_2 a i Hi) as [x ->]. reflexivity.
Qed.

Lemma length_epochs p : length (epochs p) = days p.
Proof. unfold epochs. rewrite length_fmap. apply length_seq. Qed.

Lemma lookup_epochs p t : t < days p → epochs p !! t = Some (day t).
Proof.
  intros Ht. unfold epochs. rewrite list_lookup_fmap, lookup_seq_lt by done.
  reflexivity.
Qed.

Lemma full_like_epochs p v :
  full_like (epochs p) v = (λ _, v) <$> seq 0 (days p).
Proof. unfold full_like, epochs. by rewrite <- list_fmap_compose. Qed.

Lemma set_item_in_range a i v :
  i < length a → set_item a i v = Some (<[i:=v]> a).
Proof. intros Hi. unfold set_item. rewrite decide_True; done. Qed.

(** The returned arrays are tabulations [f <$> seq 0 n]. *)
Lemma lookup_tabulate {A : Type} (f : nat → A) n t x :
  (f <$> seq 0 n) !! t = Some x ↔ t < n ∧ x = f t.
Proof.
  rewrite list_lookup_fmap. split.
  - intros H. destruct (decide (t < n)) as [Ht|Ht].
    + rewrite lookup_seq_lt in H by done. simpl in H. split; congruence.
    + rewrite lookup_seq_ge in H by lia. done.
  - intros [Ht ->]. rewrite lookup_seq_lt by done. done.
Qed.

Lemma last_tabulate {A : Type} (f : nat → A) n x :
  last (f <$> seq 0 n) = Some x ↔ 0 < n ∧ x = f (n - 1).
Proof.
  rewrite last_lookup, length_fmap, length_seq, lookup_tabulate.
  replace (pred n) with (n - 1) by lia. split; intros [? ?]; split; try done; lia.
Qed.

Lemma tabulate_length {A : Type} (f : nat → A) n : length (f <$> seq 0 n) = n.
Proof. by rewrite length_fmap, length_seq. Qed.

Lemma tabulate_ext {A : Type} (f g : nat → A) n :
  (∀ t, t < n → f t = g t) → f <$> seq 0 n = g <$> seq 0 n.
Proof.
  intros H. apply list_fmap_ext. intros i t [-> Ht]%lookup_seq. by apply H.
Qed.

Lemma tabulate_const {A B : Type} (f : nat → B) (l : list A) (v : B) n :
  length l = n → (∀ t, t < n → f t = v) → f <$> seq 0 n = (λ _, v) <$> l.
Proof.
  intros Hl Hf. apply list_eq; intros i. rewrite !list_lookup_fmap.
  destruct (decide (i < n)) as [Hi|Hi].
  - rewrite lookup_seq_lt by done.
    destruct (lookup_lt_is_Some_2 l i) as [x ->]; [lia|].
    simpl. by rewrite Hf.
  - rewrite lookup_seq_ge by lia. rewrite (lookup_ge_None_2 l i) by lia. done.
Qed.

Section LoopRuns.

Variables (delta alph : R) (capf tvlf : nat → float64) (n : nat).
Variable body : Arrays → nat → option Arrays.

(** Both loop bodies satisfy this: inside the arrays they do not raise
    and they perform [step_arrays]. *)
Hypothesis body_step : ∀ st t m,
  t < n → length (minted_so_far st) = n → length (emissions st) = n →
  minted_so_far st !! t = Some m →
  body st t = Some (step_arrays delta alph capf tvlf n st t m).

Local Abbreviation filled := (filled delta alph capf tvlf n).
Local Abbreviation minted_at := (minted_at delta alph capf tvlf).
Local Abbreviation emission_at := (emission_at delta alph capf tvlf).

Lemma filled_start a :
  length a = n → filled 0 (MkArrays (zeros_like a) (zeros_like a)).
Proof.
  intros Ha. unfold filled, zeros_like; simpl.
  rewrite !length_full_like. repeat split; try done.
  - intros j Hj Hjn. assert (j = 0) as -> by lia.
    apply lookup_full_like. lia.
  - intros j Hj. lia.
Qed.

Lemma filled_step st k :
  k < n → filled k st →
  ∃ st', body st k = Some st' ∧ filled (S k) st'.
Proof.
  intros Hk (Hlm & Hle & Hm & He).
  exists (step_arrays delta alph capf tvlf n st k (minted_at k)). split.
  { apply body_step; auto. }
  unfold filled, step_arrays; simpl. repeat split.
  - case_decide; [rewrite length_insert|]; done.
  - rewrite length_insert; done.
  - intros j Hj Hjn. case_decide as Hlt.
    + destruct (decide (j = k + 1)) as [->|Hne].
      * rewrite list_lookup_insert_eq by lia.
        replace (k + 1) with (S k) by lia. reflexivity.
      * rewrite list_lookup_insert_ne by lia. apply Hm; lia.
    + apply Hm; lia.
  - intros j Hj. destruct (decide (j = k)) as [->|Hne].
    + rewrite list_lookup_insert_eq by lia. reflexivity.
    + rewrite list_lookup_insert_ne by lia. apply He; lia.
Qed.

Lemma filled_loop len k st :
  k + len ≤ n → filled k st →
  ∃ st', for_in body (seq k len) st = Some st' ∧ filled (k + len) st'.
Proof.
  revert k st. induction len as [|len IH]; intros k st Hle Hf; simpl.
  - exists st. rewrite Nat.add_0_r. done.
  - destruct (filled_step st k) as (st1 & -> & Hf1); [lia|done|]. simpl.
    destruct (IH (S k) st1) as (st2 & -> & Hf2); [lia|done|].
    exists st2. split; [done|]. replace (k + S len) with (S k + len) by lia.
    done.
Qed.

Lemma filled_end st :
  filled n st →
  minted_so_far st = minted_at <$> seq 0 n ∧
  emissions st = emission_at <$> seq 0 n.
Proof.
  intros (Hlm & Hle & Hm & He). split; apply list_eq; intros i;
    rewrite list_lookup_fmap.
  - destruct (decide (i < n)) as [Hi|Hi].
    + rewrite lookup_seq_lt by done. simpl. apply Hm; lia.
    + rewrite lookup_seq_ge by lia. apply lookup_ge_None. lia.
  - destruct (decide (i < n)) as [Hi|Hi].
    + rewrite lookup_seq_lt by done. simpl. apply He; lia.
    + rewrite lookup_seq_ge by lia. apply lookup_ge_None. lia.
Qed.

Lemma loop_runs a :
  length a = n →
  ∃ st, for_in body (seq 0 n) (MkArrays (zeros_like a) (zeros_like a)) = Some st ∧
        minted_so_far st = minted_at <$> seq 0 n ∧
        emissions st = emission_at <$> seq 0 n.
Proof.
  intros Ha.
  destruct (filled_loop n 0 (MkArrays (zeros_like a) (zeros_like a)))
    as (st & Hrun & Hf); [lia | by apply filled_start |].
  exists st. split; [done|]. by apply filled_end.
Qed.

End LoopRuns.

(** ** The two loops compute the recurrence *)

(** Inside the arrays neither loop body raises, and each performs
    [step_arrays] with its own cap of the day. *)
Lemma App_body_step (cfg : App.Config) traj st t m :
  t < days cfg →
  length (minted_so_far st) = days cfg → length (emissions st) = days cfg →
  minted_so_far st !! t = Some m →
  App.loop_body cfg (traj <$> epochs cfg) st t
  = Some (step_arrays (delta_max cfg) (alpha cfg) (λ _, Fin (App.cap cfg))
            (λ t, traj (day t)) (days cfg) st t m).
Proof.
  intros Ht Hlm Hle Hm. unfold App.loop_body, step_arrays.
  rewrite Hm, list_lookup_fmap, lookup_epochs by done. simpl.
  rewrite (set_item_in_range (emissions st) t) by lia. simpl.
  rewrite length_epochs. case_decide; [|done].
  rewrite (set_item_in_range (minted_so_far st) (t + 1)) by lia. done.
Qed.

(** What [calculate_emissions] returns. *)
Lemma App_run (cfg : App.Config) traj :
  App.calculate_emissions cfg traj
  = Some (traj <$> epochs cfg,
          App_emission_at cfg traj <$> seq 0 (days cfg),
          App_minted_at cfg traj <$> seq 0 (days cfg)).
Proof.
  unfold App.calculate_emissions. rewrite length_epochs.
  destruct (loop_runs _ _ _ _ (days cfg) _ (App_body_step cfg traj) (epochs cfg))
    as (st & Hrun & Hm & He); [apply length_epochs|].
  rewrite Hrun. simpl. by rewrite Hm, He.
Qed.

Lemma lookup_hard_cap (cfg : App2.Config) t :
  t < days cfg →
  App2.calculate_hard_cap cfg (epochs cfg) !! t = Some (cap_on cfg t).
Proof.
  intros Ht. unfold App2.calculate_hard_cap, cap_on.
  destruct (negb (App2.cap_growth_enabled cfg)).
  - apply lookup_full_like. by rewrite length_epochs.
  - rewrite list_lookup_fmap, lookup_epochs by done. done.
Qed.

Lemma hard_cap_eq (cfg : App2.Config) :
  App2.calculate_hard_cap cfg (epochs cfg) = cap_on cfg <$> seq 0 (days cfg).
Proof.
  apply list_eq; intros i. rewrite list_lookup_fmap.
  destruct (decide (i < days cfg)) as [Hi|Hi].
  - rewrite lookup_hard_cap, lookup_seq_lt by done. done.
  - rewrite lookup_seq_ge by lia. apply lookup_ge_None.
    unfold App2.calculate_hard_cap.
    destruct (negb _); [rewrite length_full_like | rewrite length_fmap];
      rewrite length_epochs; lia.
Qed.

Lemma App2_body_step (cfg : App2.Config) traj st t m :
  t < days cfg →
  length (minted_so_far st) = days cfg → length (emissions st) = days cfg →
  minted_so_far st !! t = Some m →
  App2.loop_body cfg (traj <$> epochs cfg)
    (App2.calculate_hard_cap cfg (epochs cfg)) st t
  = Some (step_arrays (delta_max cfg) (alpha cfg) (cap_on cfg)
            (λ t, traj (day t)) (days cfg) st t m).
Proof.
  intros Ht Hlm Hle Hm. unfold App2.loop_body, step_arrays.
  rewrite lookup_hard_cap by done. simpl.
  rewrite Hm, list_lookup_fmap, lookup_epochs by done. simpl.
  rewrite (set_item_in_range (emissions st) t) by lia. simpl.
  rewrite length_epochs. case_decide; [|done].
  rewrite (set_item_in_range (minted_so_far st) (t + 1)) by lia. done.
Qed.

Lemma App2_run (cfg : App2.Config) traj :
  App2.calculate_emissions cfg traj
  = Some (traj <$> epochs cfg,
          App2_emission_at cfg traj <$> seq 0 (days cfg),
          App2_minted_at cfg traj <$> seq 0 (days cfg),
          cap_on cfg <$> seq 0 (days cfg)).
Proof.
  unfold App2.calculate_emissions. rewrite length_epochs.
  destruct (loop_runs _ _ _ _ (days cfg) _ (App2_body_step cfg traj) (epochs cfg))
    as (st & Hrun & Hm & He); [apply length_epochs|].
  rewrite Hrun. simpl. by rewrite Hm, He, hard_cap_eq.
Qed.

(** The recurrence only reads the caps and the TVL of the days of the
    grid. *)
Lemma recurrence_ext delta alph capf capf' tvlf tvlf' n :
  (∀ t, t < n → capf t = capf' t) → (∀ t, t < n → tvlf t = tvlf' t) →
  ∀ t, t < n →
    minted_at delta alph capf tvlf t = minted_at delta alph capf' tvlf' t ∧
    emission_at delta alph capf tvlf t = emission_at delta alph capf' tvlf' t.
Proof.
  intros Hcap Htvl. induction t as [|t IH]; intros Ht.
  - unfold emission_at. cbn [minted_at]. by rewrite Hcap, Htvl.
  - destruct IH as [IHm IHe]; [lia|].
    assert (minted_at delta alph capf tvlf (S t)
            = minted_at delta alph capf' tvlf' (S t)) as Hm.
    { cbn [minted_at]. unfold emission_at in IHe. by rewrite IHe, IHm. }
    split; [done|]. unfold emission_at. by rewrite Hm, Hcap, Htvl.
Qed.

Lemma tvl_values_ext p (traj traj' : float64 → float64) :
  (∀ t, t < days p → traj (day t) = traj' (day t)) →
  traj <$> epochs p = traj' <$> epochs p.
Proof.
  intros H. unfold epochs. rewrite <- !list_fmap_compose.
  by apply tabulate_ext.
Qed.

(** ** Arithmetic on finite values and on the special values *)

Lemma add_fin x y : (Fin x + Fin y)%f64 = Fin (x + y).
Proof. reflexivity. Qed.

Lemma sub_fin x y : (Fin x - Fin y)%f64 = Fin (x - y).
Proof. reflexivity. Qed.

Lemma mul_fin x y : (Fin x * Fin y)%f64 = Fin (x * y).
Proof. reflexivity. Qed.

Ltac fin_arith :=
  repeat first [rewrite mul_fin | rewrite sub_fin | rewrite add_fin].

Lemma div_fin x y : y ≠ 0%R → (Fin x / Fin y)%f64 = Fin (x / y).
Proof. intros Hy. unfold F64.div. destruct (Req_dec_T y 0); done. Qed.

Lemma div_zero_zero : (Fin 0 / Fin 0)%f64 = NaN.
Proof.
  unfold F64.div, F64.scale_inf.
  destruct (Req_dec_T 0 0) as [_|H]; [|lra].
  destruct (Rlt_dec 0 0); [lra|done].
Qed.

Lemma div_pos_zero x : (0 < x)%R → (Fin x / Fin 0)%f64 = PInf.
Proof.
  intros Hx. unfold F64.div, F64.scale_inf.
  destruct (Req_dec_T 0 0) as [_|H]; [|lra].
  destruct (Rlt_dec 0 x); [done|lra].
Qed.

Lemma mul_zero_inf : (Fin 0 * PInf)%f64 = NaN.
Proof.
  unfold F64.mul, F64.scale_inf.
  destruct (Rlt_dec 0 0); [lra|done].
Qed.

Lemma py_min_fin x y : F64.py_min (Fin x) (Fin y) = Fin (Rmin x y).
Proof.
  unfold F64.py_min, F64.ltb, Rmin.
  destruct (Rlt_dec y x), (Rle_dec x y); f_equal; lra.
Qed.

Lemma py_min_nan b : F64.py_min NaN b = NaN.
Proof. unfold F64.py_min, F64.ltb. by destruct b. Qed.

Lemma log_fin x : (0 < x)%R → F64.log (Fin x) = Fin (ln x).
Proof. intros Hx. unfold F64.log. destruct (Rlt_dec 0 x); done. Qed.

Lemma lt_fin x y : (Fin x < Fin y)%f64 ↔ (x < y)%R.
Proof.
  unfold F64.lt, F64.ltb. destruct (Rlt_dec x y); split; (done || lra).
Qed.

Lemma e_actual_fin delta alph c m v :
  c ≠ 0%R → (1 + alph * v)%R ≠ 0%R →
  e_actual_of delta alph (Fin c) (Fin m) (Fin v)
  = Fin (e_real delta alph c m v).
Proof.
  intros Hc Hd. unfold e_actual_of, e_t_of, g_cap_of, f_tvl_of, e_real.
  rewrite (div_fin m c), mul_fin, add_fin, (div_fin 1) by done.
  rewrite !sub_fin, !mul_fin. apply py_min_fin.
Qed.

Lemma e_actual_nan_cap delta alph m v :
  e_actual_of delta alph NaN m v = NaN.
Proof.
  unfold e_actual_of, e_t_of, g_cap_of.
  assert ((m / NaN)%f64 = NaN) as -> by (by destruct m).
  apply py_min_nan.
Qed.

(** Day 0 of the recurrence, for a cap and a TVL that are numbers. *)
Lemma first_day delta alph capf tvlf c v :
  capf 0 = Fin c → tvlf 0 = Fin v → c ≠ 0%R → (1 + alph * v)%R ≠ 0%R →
  emission_at delta alph capf tvlf 0 = Fin (e_real delta alph c 0 v) ∧
  minted_at delta alph capf tvlf 1 = Fin (e_real delta alph c 0 v).
Proof.
  intros Hc Hv Hc0 Hv0. unfold emission_at. cbn [minted_at].
  rewrite Hc, Hv, e_actual_fin, add_fin, Rplus_0_l by done. done.
Qed.

(** ** One step of the recurrence on real numbers *)

Lemma remaining_fraction_bounds c m :
  (0 < c → m <= c → 0 <= 1 - m / c)%R.
Proof.
  intros Hc Hm. replace (1 - m / c)%R with ((c - m) * / c)%R by (field; lra).
  apply Rmult_le_pos; [lra|]. left. by apply Rinv_0_lt_compat.
Qed.

Lemma remaining_fraction_le_1 c m :
  (0 < c → 0 <= m → 1 - m / c <= 1)%R.
Proof.
  intros Hc Hm. assert (0 <= m * / c)%R.
  { apply Rmult_le_pos; [done|]. left. by apply Rinv_0_lt_compat. }
  unfold Rdiv. lra.
Qed.

Lemma e_real_le_headroom delta alph c m v :
  (e_real delta alph c m v <= c - m)%R.
Proof. unfold e_real. apply Rmin_r. Qed.

Lemma e_real_nonneg delta alph c m v :
  (0 < c → m <= c → 0 <= delta → 0 < 1 + alph * v →
   0 <= e_real delta alph c m v)%R.
Proof.
  intros Hc Hm Hd Hv. unfold e_real. apply Rmin_glb; [|lra].
  apply Rmult_le_pos; [apply Rmult_le_pos|].
  - done.
  - by apply remaining_fraction_bounds.
  - left. unfold Rdiv. rewrite Rmult_1_l. by apply Rinv_0_lt_compat.
Qed.

Lemma e_real_le_delta delta alph c m v :
  (0 < c → 0 <= m → m <= c → 0 <= delta → 1 <= 1 + alph * v →
   e_real delta alph c m v <= delta)%R.
Proof.
  intros Hc Hm0 Hm Hd Hv. unfold e_real.
  eapply Rle_trans; [apply Rmin_l|].
  pose proof (remaining_fraction_bounds c m Hc Hm) as Hg0.
  pose proof (remaining_fraction_le_1 c m Hc Hm0) as Hg1.
  assert (0 < 1 / (1 + alph * v) <= 1)%R as [Hf0 Hf1].
  { unfold Rdiv. rewrite Rmult_1_l. split.
    - apply Rinv_0_lt_compat. lra.
    - rewrite <- Rinv_1. apply Rinv_le_contravar; lra. }
  assert (delta * (1 - m / c) <= delta)%R by nra.
  assert (0 <= delta * (1 - m / c))%R by nra.
  nra.
Qed.

(** With [delta_max < cap] and a non-negative TVL a day's emission leaves
    the cap unreached. *)
Lemma e_real_lt_headroom delta alph c m v :
  (0 < c → m < c → 0 <= delta < c → 1 <= 1 + alph * v →
   e_real delta alph c m v < c - m)%R.
Proof.
  intros Hc Hm [Hd0 Hdc] Hv. unfold e_real.
  eapply Rle_lt_trans; [apply Rmin_l|].
  assert (0 < 1 - m / c)%R as Hg.
  { replace (1 - m / c)%R with ((c - m) * / c)%R by (field; lra).
    apply Rmult_lt_0_compat; [lra|]. by apply Rinv_0_lt_compat. }
  assert (0 < 1 / (1 + alph * v) <= 1)%R as [Hf0 Hf1].
  { unfold Rdiv. rewrite Rmult_1_l. split.
    - apply Rinv_0_lt_compat. lra.
    - rewrite <- Rinv_1. apply Rinv_le_contravar; lra. }
  replace (c - m)%R with (c * (1 - m / c))%R by (field; lra).
  assert (delta * (1 - m / c) < c * (1 - m / c))%R by nra.
  assert (0 <= delta * (1 - m / c))%R by nra.
  nra.
Qed.

(** Below the cap, a damping denominator [1 + alpha * tvl < 0] makes the
    emission negative. *)
Lemma e_real_negative delta alph c m v :
  (0 < c → m < c → 0 < delta → 1 + alph * v < 0 →
   e_real delta alph c m v < 0)%R.
Proof.
  intros Hc Hm Hd Hv. unfold e_real.
  eapply Rle_lt_trans; [apply Rmin_l|].
  assert (0 < 1 - m / c)%R as Hg.
  { replace (1 - m / c)%R with ((c - m) * / c)%R by (field; lra).
    apply Rmult_lt_0_compat; [lra|]. by apply Rinv_0_lt_compat. }
  assert (1 / (1 + alph * v) < 0)%R as Hf.
  { unfold Rdiv. rewrite Rmult_1_l. by apply Rinv_lt_0_compat. }
  assert (0 < delta * (1 - m / c))%R by nra.
  nra.
Qed.

(** ** Invariants of the recurrence *)

Section Invariants.

Variables (delta alph : R) (capf tvlf : nat → float64) (n : nat).

Local Abbreviation minted_at := (minted_at delta alph capf tvlf).
Local Abbreviation emission_at := (emission_at delta alph capf tvlf).

(** The cap of every day is a positive number and never decreases from
    one day to the next; the TVL of every day is a number that does not
    make the damping denominator vanish. *)
Hypothesis cap_positive : ∀ t, t < n → ∃ c, capf t = Fin c ∧ (0 < c)%R.
Hypothesis cap_monotone : ∀ t, S t < n → (capf t <= capf (S t))%f64.
Hypothesis tvl_regular :
  ∀ t, t < n → ∃ v, tvlf t = Fin v ∧ (1 + alph * v)%R ≠ 0%R.

(** On every day the cumulative mint, the cap, the TVL and the emission
    are numbers, the mint is at most the cap, and it is non-negative when
    [delta_max] is and the damping denominators are positive. *)
Lemma day_invariant t :
  t < n →
  ∃ m c v,
    minted_at t = Fin m ∧ capf t = Fin c ∧ tvlf t = Fin v ∧
    emission_at t = Fin (e_real delta alph c m v) ∧
    (0 < c)%R ∧ (m <= c)%R ∧
    ((0 <= delta)%R →
     (∀ k, k < n → ∃ w, tvlf k = Fin w ∧ (0 < 1 + alph * w)%R) →
     (0 <= m)%R).
Proof.
  induction t as [|t IH]; intros Ht.
  - destruct (cap_positive 0 Ht) as (c & Hc & Hc0).
    destruct (tvl_regular 0 Ht) as (v & Hv & Hv0).
    exists 0%R, c, v. unfold emission_at. rewrite Hc, Hv. simpl.
    repeat split; try done; try lra.
    apply e_actual_fin; [lra|done].
  - destruct IH as (m & c & v & Hm & Hc & Hv & He & Hc0 & Hmc & Hm0); [lia|].
    destruct (cap_positive (S t) Ht) as (c' & Hc' & Hc0').
    destruct (tvl_regular (S t) Ht) as (v' & Hv' & Hv0').
    pose proof (cap_monotone t Ht) as Hmono. rewrite Hc, Hc' in Hmono.
    simpl in Hmono.
    assert (minted_at (S t) = Fin (m + e_real delta alph c m v)) as Hm'.
    { simpl. unfold emission_at in He. by rewrite He, Hm. }
    pose proof (e_real_le_headroom delta alph c m v) as Hhead.
    exists (m + e_real delta alph c m v)%R, c', v'.
    unfold emission_at. rewrite Hm', Hc', Hv'.
    repeat split; try done; try lra.
    + apply e_actual_fin; [lra|done].
    + intros Hd Hpos. specialize (Hm0 Hd Hpos).
      destruct (Hpos t) as (w & Hw & Hw0); [lia|].
      rewrite Hv in Hw. injection Hw as <-.
      pose proof (e_real_nonneg delta alph c m v Hc0 Hmc Hd Hw0). lra.
Qed.

End Invariants.

Section RunInvariants.

Variables (delta alph : R) (capf tvlf : nat → float64) (n : nat).

Local Abbreviation minted := (minted_at delta alph capf tvlf <$> seq 0 n).
Local Abbreviation emitted := (emission_at delta alph capf tvlf <$> seq 0 n).

Hypothesis cap_positive : ∀ t, t < n → ∃ c, capf t = Fin c ∧ (0 < c)%R.
Hypothesis cap_monotone : ∀ t, S t < n → (capf t <= capf (S t))%f64.

Lemma run_cap_respected :
  (∀ t, t < n → ∃ v, tvlf t = Fin v ∧ (1 + alph * v)%R ≠ 0%R) →
  cap_respected (capf <$> seq 0 n) minted emitted.
Proof.
  intros Htvl. split.
  - intros t m c [Ht ->]%lookup_tabulate [_ ->]%lookup_tabulate.
    destruct (day_invariant delta alph capf tvlf n cap_positive cap_monotone
                Htvl t Ht) as (m & c & v & -> & -> & _ & _ & _ & Hmc & _).
    done.
  - intros m e c [Hn ->]%last_tabulate [_ ->]%last_tabulate
      [_ ->]%last_tabulate.
    destruct (day_invariant delta alph capf tvlf n cap_positive cap_monotone
                Htvl (n - 1)) as (m & c & v & -> & -> & _ & -> & _ & _ & _);
      [lia|].
    simpl. pose proof (e_real_le_headroom delta alph c m v). lra.
Qed.

Section PositiveDamping.

Hypothesis delta_nonneg : (0 <= delta)%R.
Hypothesis damping_positive :
  ∀ t, t < n → ∃ v, tvlf t = Fin v ∧ (0 < 1 + alph * v)%R.

Lemma damping_regular :
  ∀ t, t < n → ∃ v, tvlf t = Fin v ∧ (1 + alph * v)%R ≠ 0%R.
Proof.
  intros t Ht. destruct (damping_positive t Ht) as (v & Hv & Hpos).
  exists v. split; [done|lra].
Qed.

(** On every day: the cumulative mint [m] lies in [[0, c]] and the
    emission is the real number [e_real], for the day's TVL [v]. *)
Lemma day_in_range t :
  t < n →
  ∃ m c v,
    minted_at delta alph capf tvlf t = Fin m ∧
    emission_at delta alph capf tvlf t = Fin (e_real delta alph c m v) ∧
    tvlf t = Fin v ∧
    (0 < c)%R ∧ (0 <= m <= c)%R ∧ (0 < 1 + alph * v)%R.
Proof.
  intros Ht.
  destruct (day_invariant delta alph capf tvlf n cap_positive cap_monotone
              damping_regular t Ht)
    as (m & c & v & Hm & Hc & Hv & He & Hc0 & Hmc & Hm0).
  destruct (damping_positive t Ht) as (w & Hw & Hw0).
  rewrite Hv in Hw. injection Hw as <-.
  exists m, c, v. repeat split; try done. by apply Hm0.
Qed.

Lemma run_emissions_nonneg : emissions_nonneg emitted.
Proof.
  intros t e [Ht ->]%lookup_tabulate.
  destruct (day_in_range t Ht) as (m & c & v & _ & -> & _ & Hc & [_ Hm] & Hv).
  simpl. by apply e_real_nonneg.
Qed.

Lemma run_non_decreasing : non_decreasing minted.
Proof.
  intros t m m' [Ht ->]%lookup_tabulate [Ht' ->]%lookup_tabulate.
  destruct (day_in_range t Ht) as (m & c & v & Hm & He & _ & Hc & [_ Hmc] & Hv).
  simpl. unfold emission_at in He. rewrite He, Hm. simpl.
  pose proof (e_real_nonneg delta alph c m v Hc Hmc delta_nonneg Hv). lra.
Qed.

Lemma run_emissions_at_most :
  (∀ t, t < n → ∃ v, tvlf t = Fin v ∧ (1 <= 1 + alph * v)%R) →
  emissions_at_most delta emitted.
Proof.
  intros Hge t e [Ht ->]%lookup_tabulate.
  destruct (day_in_range t Ht) as (m & c & v & _ & -> & Hv & Hc & [Hm0 Hmc] & _).
  destruct (Hge t Ht) as (w & Hw & Hw1). rewrite Hv in Hw. injection Hw as <-.
  simpl. by apply e_real_le_delta.
Qed.

End PositiveDamping.

End RunInvariants.

Section BelowTheCap.

Variables (delta alph c : R) (tvlf : nat → float64) (n : nat).

Hypothesis cap_positive : (0 < c)%R.
Hypothesis delta_below_cap : (0 <= delta < c)%R.
Hypothesis tvl_nonneg_before :
  ∀ t, t < n → ∃ v, tvlf t = Fin v ∧ (1 <= 1 + alph * v)%R.

(** While the TVL is non-negative and [delta_max < cap], the cumulative
    mint stays strictly below the cap. *)
Lemma headroom_remains t :
  t ≤ n →
  ∃ m, minted_at delta alph (λ _, Fin c) tvlf t = Fin m ∧ (0 <= m < c)%R.
Proof.
  induction t as [|t IH]; intros Ht.
  - exists 0%R. split; [done|lra].
  - destruct IH as (m & Hm & Hm0 & Hmc); [lia|].
    destruct (tvl_nonneg_before t) as (v & Hv & Hv1); [lia|].
    exists (m + e_real delta alph c m v)%R. split.
    + cbn [minted_at]. rewrite Hm, Hv, e_actual_fin by lra. done.
    + pose proof (e_real_lt_headroom delta alph c m v cap_positive Hmc
                    delta_below_cap Hv1).
      pose proof (e_real_nonneg delta alph c m v).
      lra.
Qed.

(** A TVL below [-1/alpha] on day [n] then gives a negative emission. *)
Lemma emission_negative_after v :
  (0 < delta)%R → tvlf n = Fin v → (1 + alph * v < 0)%R →
  ∃ e, emission_at delta alph (λ _, Fin c) tvlf n = Fin e ∧ (e < 0)%R.
Proof.
  intros Hd Hv Hneg.
  destruct (headroom_remains n) as (m & Hm & Hm0 & Hmc); [lia|].
  exists (e_real delta alph c m v). split.
  - unfold emission_at. rewrite Hm, Hv, e_actual_fin by lra. done.
  - by apply e_real_negative.
Qed.

End BelowTheCap.

(** ** The hard cap schedule of app2.py *)

Lemma ln_monotone x y : (0 < x → x <= y → ln x <= ln y)%R.
Proof.
  intros Hx [Hlt| ->]; [|lra]. left. by apply ln_increasing.
Qed.

Section GrowingCap.

Variable cfg : App2.Config.

Hypothesis rate_positive : (0 < App2.cap_growth_rate cfg)%R.
Hypothesis some_days : 0 < days cfg.

Lemma log_arg_ge_1 t : (1 <= 1 + App2.cap_growth_rate cfg * INR t)%R.
Proof. pose proof (pos_INR t). nra. Qed.

Lemma log_horizon_positive :
  (0 < ln (1 + App2.cap_growth_rate cfg * INR (days cfg)))%R.
Proof.
  rewrite <- ln_1. apply ln_increasing; [lra|].
  pose proof (lt_0_INR _ some_days). nra.
Qed.

Lemma growing_cap_fin t : App2.growing_cap cfg (day t) = Fin (cap_real cfg t).
Proof.
  unfold App2.growing_cap, day, cap_real.
  rewrite !mul_fin, !add_fin, sub_fin.
  rewrite !log_fin.
  - rewrite mul_fin, div_fin, add_fin; [done|].
    pose proof log_horizon_positive. lra.
  - pose proof (log_arg_ge_1 (days cfg)). lra.
  - pose proof (log_arg_ge_1 t). lra.
Qed.

(** The fraction of the way from [initial_cap] to [max_cap] covered on
    day [t]. *)
Lemma growth_fraction_0 :
  (ln (1 + App2.cap_growth_rate cfg * INR 0)
   / ln (1 + App2.cap_growth_rate cfg * INR (days cfg)) = 0)%R.
Proof.
  simpl. rewrite Rmult_0_r, Rplus_0_r, ln_1. unfold Rdiv. apply Rmult_0_l.
Qed.

Lemma growth_fraction_monotone t t' :
  t ≤ t' →
  (ln (1 + App2.cap_growth_rate cfg * INR t)
   / ln (1 + App2.cap_growth_rate cfg * INR (days cfg))
   <= ln (1 + App2.cap_growth_rate cfg * INR t')
      / ln (1 + App2.cap_growth_rate cfg * INR (days cfg)))%R.
Proof.
  intros Hle. unfold Rdiv. apply Rmult_le_compat_r.
  - left. apply Rinv_0_lt_compat, log_horizon_positive.
  - apply ln_monotone.
    + pose proof (log_arg_ge_1 t). lra.
    + pose proof (le_INR _ _ Hle). nra.
Qed.

Lemma growth_fraction_lt_1 t :
  t < days cfg →
  (ln (1 + App2.cap_growth_rate cfg * INR t)
   / ln (1 + App2.cap_growth_rate cfg * INR (days cfg)) < 1)%R.
Proof.
  intros Hlt. pose proof log_horizon_positive as Hpos.
  apply (Rmult_lt_reg_r (ln (1 + App2.cap_growth_rate cfg * INR (days cfg))));
    [done|].
  unfold Rdiv. rewrite Rmult_assoc, Rinv_l, Rmult_1_r, Rmult_1_l by lra.
  apply ln_increasing.
  - pose proof (log_arg_ge_1 t). lra.
  - pose proof (lt_INR _ _ Hlt). nra.
Qed.

Lemma cap_real_unfold t :
  cap_real cfg t
  = (App2.initial_cap cfg
     + (App2.max_cap cfg - App2.initial_cap cfg)
       * (ln (1 + App2.cap_growth_rate cfg * INR t)
          / ln (1 + App2.cap_growth_rate cfg * INR (days cfg))))%R.
Proof. unfold cap_real, Rdiv. ring. Qed.

Lemma cap_real_0 : cap_real cfg 0 = App2.initial_cap cfg.
Proof. rewrite cap_real_unfold, growth_fraction_0. ring. Qed.

Lemma cap_real_monotone t t' :
  (App2.initial_cap cfg <= App2.max_cap cfg)%R → t ≤ t' →
  (cap_real cfg t <= cap_real cfg t')%R.
Proof.
  intros Hmax Hle. rewrite !cap_real_unfold.
  pose proof (growth_fraction_monotone t t' Hle). nra.
Qed.

Lemma cap_real_ge_initial t :
  (App2.initial_cap cfg <= App2.max_cap cfg)%R →
  (App2.initial_cap cfg <= cap_real cfg t)%R.
Proof.
  intros Hmax. rewrite <- cap_real_0. apply cap_real_monotone; [done|lia].
Qed.

Lemma cap_real_le_max t :
  (App2.initial_cap cfg <= App2.max_cap cfg)%R → t < days cfg →
  (cap_real cfg t <= App2.max_cap cfg)%R.
Proof.
  intros Hmax Hlt. rewrite cap_real_unfold.
  pose proof (growth_fraction_lt_1 t Hlt). nra.
Qed.

Lemma cap_real_lt_max t :
  (App2.initial_cap cfg < App2.max_cap cfg)%R → t < days cfg →
  (cap_real cfg t < App2.max_cap cfg)%R.
Proof.
  intros Hmax Hlt. rewrite cap_real_unfold.
  pose proof (growth_fraction_lt_1 t Hlt). nra.
Qed.

End GrowingCap.

(** With a zero growth rate both logarithms are [log(1) = 0] and the
    quotient is the invalid [0/0]. *)
Lemma growing_cap_rate_zero (cfg : App2.Config) x :
  App2.cap_growth_rate cfg = 0%R → App2.growing_cap cfg (Fin x) = NaN.
Proof.
  intros Hrate. unfold App2.growing_cap. rewrite Hrate.
  rewrite !mul_fin, !add_fin, sub_fin, !Rmult_0_l, !Rplus_0_r.
  rewrite log_fin, ln_1, mul_fin, Rmult_0_r by lra.
  rewrite div_zero_zero. reflexivity.
Qed.

Lemma zero_rate_cap_on (cfg : App2.Config) t :
  App2.cap_growth_enabled cfg = true → App2.cap_growth_rate cfg = 0%R →
  cap_on cfg t = NaN.
Proof.
  intros Hen Hrate. unfold cap_on. rewrite Hen. simpl.
  by apply growing_cap_rate_zero.
Qed.

Lemma cap_on_positive (cfg : App2.Config) :
  positive_schedule (App2.calculate_hard_cap cfg (epochs cfg)) →
  ∀ t, t < days cfg → ∃ c, cap_on cfg t = Fin c ∧ (0 < c)%R.
Proof.
  intros Hpos t Ht. apply Hpos, list_elem_of_lookup.
  exists t. by apply lookup_hard_cap.
Qed.

Lemma cap_on_monotone (cfg : App2.Config) :
  cap_inputs_in_range cfg →
  positive_schedule (App2.calculate_hard_cap cfg (epochs cfg)) →
  ∀ t, S t < days cfg → (cap_on cfg t <= cap_on cfg (S t))%f64.
Proof.
  intros [Hrate Hmax] Hpos t Ht.
  destruct (cap_on_positive cfg Hpos 0) as (c0 & Hc0 & _); [lia|].
  unfold cap_on in *. destruct (App2.cap_growth_enabled cfg); simpl in *.
  - destruct Hrate as [Hrate|Hrate].
    + rewrite !growing_cap_fin by (done || lia). simpl.
      apply cap_real_monotone; (done || lia).
    + unfold day in Hc0. by rewrite growing_cap_rate_zero in Hc0.
  - lra.
Qed.

Lemma schedule_positive (cfg : App2.Config) :
  (0 < App2.initial_cap cfg)%R →
  (App2.cap_growth_enabled cfg = true →
   (0 < App2.cap_growth_rate cfg)%R ∧
   (App2.initial_cap cfg <= App2.max_cap cfg)%R) →
  positive_schedule (App2.calculate_hard_cap cfg (epochs cfg)).
Proof.
  intros Hinit Hgrow c Hc. rewrite hard_cap_eq in Hc.
  apply list_elem_of_lookup in Hc as [t [Ht ->]%lookup_tabulate].
  unfold cap_on. destruct (App2.cap_growth_enabled cfg); simpl.
  - destruct Hgrow as [Hrate Hmax]; [done|].
    rewrite growing_cap_fin by (done || lia). eexists; split; [done|].
    pose proof (cap_real_ge_initial cfg Hrate ltac:(lia) t Hmax). lra.
  - by eexists.
Qed.

(** ** TVL trajectories *)

Lemma positive_damping_regular p traj :
  positive_damping p traj → regular_tvl p traj.
Proof.
  intros H t Ht. destruct (H t Ht) as (v & Hv & Hpos).
  exists v. split; [done|lra].
Qed.

Lemma nonneg_tvl_damping p traj :
  (0 < alpha p)%R → nonneg_tvl p traj → positive_damping p traj.
Proof.
  intros Ha H t Ht. destruct (H t Ht) as (v & Hv & Hpos).
  exists v. split; [done|nra].
Qed.

(** The linear trajectory never goes below zero. *)
Lemma increasing_tvl_nonneg (p : Params) :
  (0 <= start_tvl p)%R → (0 <= growth_rate p)%R →
  nonneg_tvl p (increasing_tvl p).
Proof.
  intros Hs Hg t Ht. eexists. split; [reflexivity|].
  pose proof (Rmult_le_pos _ _ Hg (pos_INR t)).
  apply Rmult_le_pos; lra.
Qed.

(** With a period of 36 days the seasonal term of the sinusoidal
    trajectory is non-negative up to day 18 and at most [-amplitude/6] on
    day 19: [sin(pi/6) = 3 s - 4 s^3 <= 3 s] for [s = sin(pi/18)]. *)
Lemma sin_pi_18 : (1 / 6 <= sin (PI / 18))%R.
Proof.
  pose proof PI_RGT_0 as Hpi.
  assert (0 < sin (PI / 18))%R as Hs by (apply sin_gt_0; lra).
  pose proof sin_PI6 as H6.
  replace (PI / 6)%R with (2 * (PI / 18) + PI / 18)%R in H6 by field.
  rewrite sin_plus, sin_2a, cos_2a_sin in H6.
  pose proof (sin2_cos2 (PI / 18)) as Hsq. unfold Rsqr in Hsq.
  set (s := sin (PI / 18)) in *. set (c := cos (PI / 18)) in *.
  assert (c * c = 1 - s * s)%R as Hc by lra.
  assert (2 * s * c * c = 2 * s * (1 - s * s))%R as Hscc.
  { rewrite Rmult_assoc, Hc. ring. }
  assert (0 <= s * s * s)%R.
  { apply Rmult_le_pos; [apply Rmult_le_pos|]; lra. }
  nra.
Qed.

Lemma INR_36 : INR 36 = 36%R.
Proof. rewrite INR_IZR_INZ. reflexivity. Qed.

Lemma sin_day_19 : (sin (2 * PI * INR 19 / INR 36) <= - (1 / 6))%R.
Proof.
  rewrite INR_36.
  replace (INR 19) with 19%R by (rewrite INR_IZR_INZ; reflexivity).
  replace (2 * PI * 19 / 36)%R with (PI / 18 + PI)%R by field.
  rewrite neg_sin. pose proof sin_pi_18. lra.
Qed.

Lemma sin_first_half t : t ≤ 18 → (0 <= sin (2 * PI * INR t / INR 36))%R.
Proof.
  intros Ht. pose proof PI_RGT_0 as Hpi.
  pose proof (pos_INR t) as H0. pose proof (le_INR _ _ Ht) as H18.
  replace (INR 18) with 18%R in H18 by (rewrite INR_IZR_INZ; reflexivity).
  rewrite INR_36. apply sin_ge_0.
  - apply Rmult_le_pos; [|lra]. apply Rmult_le_pos; lra.
  - replace (2 * PI * INR t / 36)%R with (PI * (INR t / 18))%R by field.
    assert (INR t / 18 <= 1)%R by lra. nra.
Qed.

Lemma seasonal_tvl t :
  sinusoidal_increasing_tvl seasonal (day t)
  = Fin (1 * (1 + 0.005 * INR t) + 2e7 * sin (2 * PI * INR t / INR 36)).
Proof.
  unfold sinusoidal_increasing_tvl, day.
  cbn [start_tvl sin_growth_rate amplitude period App.params seasonal].
  fin_arith. rewrite div_fin by (rewrite INR_36; lra). done.
Qed.

(** ** The concrete inputs *)

(** The inputs used to instantiate the theorems: the linear trajectory
    under scenario A and under the defaults of app2.py. *)
Lemma scenario_A_nonneg_tvl : nonneg_tvl scenario_A (increasing_tvl scenario_A).
Proof. apply increasing_tvl_nonneg; simpl; lra. Qed.

Lemma default_growing_nonneg_tvl :
  nonneg_tvl default_growing (increasing_tvl default_growing).
Proof. apply increasing_tvl_nonneg; simpl; lra. Qed.

Lemma scenario_A_damping :
  positive_damping scenario_A (increasing_tvl scenario_A).
Proof.
  apply nonneg_tvl_damping; [simpl; lra | apply scenario_A_nonneg_tvl].
Qed.

Lemma default_growing_damping :
  positive_damping default_growing (increasing_tvl default_growing).
Proof.
  apply nonneg_tvl_damping; [simpl; lra | apply default_growing_nonneg_tvl].
Qed.

Lemma default_growing_in_range : cap_inputs_in_range default_growing.
Proof. split; simpl; lra. Qed.

Lemma default_growing_positive :
  positive_schedule
    (App2.calculate_hard_cap default_growing (epochs default_growing)).
Proof. apply schedule_positive; simpl; [lra|]. intros _. split; lra. Qed.

Lemma small_days : days small = 365.
Proof. reflexivity. Qed.

(** A TVL of [-2] with [alpha = 1] gives the damping factor
    [1/(1-2) = -1], the provisional emission [-10] and, as nothing floors
    it, the emission [-10]: the cumulative mint goes down on day 1. *)
Lemma small_sunk_day0 :
  App_emission_at small sunk_tvl 0 = Fin (-10) ∧
  App_minted_at small sunk_tvl 1 = Fin (-10).
Proof.
  destruct (first_day (delta_max small) (alpha small)
              (λ _, Fin (App.cap small)) (λ t, sunk_tvl (day t))
              1000 (-2)) as [He0 Hm1];
    [reflexivity | reflexivity | lra | simpl; lra |].
  unfold App_emission_at, App_minted_at. rewrite He0, Hm1.
  assert (e_real (delta_max small) (alpha small) 1000 0 (-2) = (-10)%R) as ->.
  { simpl. unfold e_real, Rmin. destruct Rle_dec; lra. }
  done.
Qed.

(** With [cap = 1] the first day's emission exhausts the cap; on day 1 the TVL is [-1/alpha], the damping
    factor is [1/0 = inf], the provisional emission [10 * 0 * inf] is NaN,
    and so is the cumulative mint from day 2 on. *)
Lemma tiny_cap_day1 :
  App_minted_at tiny_cap falling_tvl 1 = Fin 1 ∧
  App_emission_at tiny_cap falling_tvl 1 = NaN.
Proof.
  assert (App_minted_at tiny_cap falling_tvl 1 = Fin 1) as H1.
  { destruct (first_day (delta_max tiny_cap) (alpha tiny_cap)
                (λ _, Fin (App.cap tiny_cap)) (λ t, falling_tvl (day t))
                1 (1 - 2 * 0)) as [_ Hm1];
      [reflexivity | reflexivity | lra | simpl; lra |].
    unfold App_minted_at. rewrite Hm1. f_equal. simpl.
    unfold e_real, Rmin. destruct Rle_dec; lra. }
  split; [done|].
  unfold App_emission_at, emission_at. fold (App_minted_at tiny_cap falling_tvl).
  rewrite H1. unfold e_actual_of, e_t_of, g_cap_of, f_tvl_of, falling_tvl, day.
  simpl. rewrite (div_fin 1 1) by lra. fin_arith.
  replace (1 + 1 * (1 - 2 * 1))%R with 0%R by lra.
  replace (10 * (1 - 1 / 1))%R with 0%R by lra.
  rewrite div_pos_zero by lra. rewrite mul_zero_inf. apply py_min_nan.
Qed.

(** * The claims *)

(** ** C1: the cap is never exceeded *)

Lemma App_cap_positive (cfg : App.Config) :
  (0 < App.cap cfg)%R →
  ∀ t, t < days cfg → ∃ c, Fin (App.cap cfg) = Fin c ∧ (0 < c)%R.
Proof. intros Hcap t _. by eexists. Qed.

Lemma App_cap_monotone (cfg : App.Config) :
  ∀ t, S t < days cfg → (Fin (App.cap cfg) <= Fin (App.cap cfg))%f64.
Proof. intros t _. simpl. lra. Qed.

Lemma App_respects_cap (cfg : App.Config) traj :
  (0 < App.cap cfg)%R → regular_tvl cfg traj →
  ∃ tvl em ms,
    App.calculate_emissions cfg traj = Some (tvl, em, ms) ∧
    length ms = days cfg ∧
    cap_respected (full_like (epochs cfg) (Fin (App.cap cfg))) ms em.
Proof.
  intros Hcap Htvl. rewrite App_run. eexists _, _, _. split; [done|].
  split; [apply tabulate_length|]. rewrite full_like_epochs.
  apply run_cap_respected;
    [by apply App_cap_positive | by apply App_cap_monotone | done].
Qed.

Lemma App2_respects_cap (cfg : App2.Config) traj :
  cap_inputs_in_range cfg →
  positive_schedule (App2.calculate_hard_cap cfg (epochs cfg)) →
  regular_tvl cfg traj →
  ∃ tvl em ms caps,
    App2.calculate_emissions cfg traj = Some (tvl, em, ms, caps) ∧
    length ms = days cfg ∧
    cap_respected caps ms em.
Proof.
  intros Hrange Hpos Htvl. rewrite App2_run. eexists _, _, _, _.
  split; [done|]. split; [apply tabulate_length|].
  apply run_cap_respected;
    [by apply cap_on_positive | by apply cap_on_monotone | done].
Qed.

(** C1 (as amended).  With a positive cap (app.py), or cap inputs within
    the sidebar's bounds and a positive cap schedule (app2.py), and a TVL
    trajectory whose values are numbers with [1 + alpha * tvl[t]] not zero,
    the simulator returns its arrays, [minted_cumulative[t] <= cap[t]] on
    every day [t] of the grid, and on the last day
    [minted_cumulative[days-1] + emission[days-1] <= cap[days-1]]. *)
Theorem cap_never_exceeded :
  (∀ (cfg : App.Config) (traj : float64 → float64),
     (0 < App.cap cfg)%R → regular_tvl cfg traj →
     ∃ tvl em ms,
       App.calculate_emissions cfg traj = Some (tvl, em, ms) ∧
       length ms = days cfg ∧
       cap_respected (full_like (epochs cfg) (Fin (App.cap cfg))) ms em) ∧
  (∀ (cfg : App2.Config) (traj : float64 → float64),
     cap_inputs_in_range cfg →
     positive_schedule (App2.calculate_hard_cap cfg (epochs cfg)) →
     regular_tvl cfg traj →
     ∃ tvl em ms caps,
       App2.calculate_emissions cfg traj = Some (tvl, em, ms, caps) ∧
       length ms = days cfg ∧
       cap_respected caps ms em).
Proof.
  split; [apply App_respects_cap | apply App2_respects_cap].
Qed.

Lemma cap_never_exceeded_witness :
  (∃ tvl em ms,
     App.calculate_emissions scenario_A (increasing_tvl scenario_A)
     = Some (tvl, em, ms) ∧
     length ms = days scenario_A ∧
     cap_respected (full_like (epochs scenario_A) (Fin (App.cap scenario_A)))
       ms em) ∧
  (∃ tvl em ms caps,
     App2.calculate_emissions default_growing (increasing_tvl default_growing)
     = Some (tvl, em, ms, caps) ∧
     length ms = days default_growing ∧
     cap_respected caps ms em).
Proof.
  split.
  - apply (proj1 cap_never_exceeded scenario_A (increasing_tvl scenario_A)).
    + simpl. lra.
    + apply positive_damping_regular, scenario_A_damping.
  - apply (proj2 cap_never_exceeded default_growing
             (increasing_tvl default_growing)).
    + apply default_growing_in_range.
    + apply default_growing_positive.
    + apply positive_damping_regular, default_growing_damping.
Defined.

Lemma cap_never_exceeded_counterexample :
  (0 < App.cap tiny_cap)%R ∧
  ∃ tvl em ms,
    App.calculate_emissions tiny_cap falling_tvl = Some (tvl, em, ms) ∧
    ms !! 2 = Some NaN ∧
    ¬ cap_respected (full_like (epochs tiny_cap) (Fin (App.cap tiny_cap)))
        ms em.
Proof.
  split; [simpl; lra|]. rewrite App_run. eexists _, _, _. split; [done|].
  destruct tiny_cap_day1 as [H1 He1].
  assert ((App_minted_at tiny_cap falling_tvl <$> seq 0 (days tiny_cap)) !! 2
          = Some NaN) as H2.
  { apply lookup_tabulate. split; [unfold days; simpl; lia|].
    unfold App_minted_at in *. cbn [minted_at].
    unfold App_emission_at, emission_at in He1. cbn [minted_at] in He1.
    rewrite He1. cbn [minted_at] in H1. by rewrite H1. }
  split; [done|]. intros [Hle _].
  apply (Hle 2 NaN (Fin (App.cap tiny_cap)) H2).
  rewrite full_like_epochs. apply lookup_tabulate. split; [unfold days; simpl; lia|done].
Qed.

(** ** C2: no negative emission *)

(** C2 (as amended).  With a positive cap (app.py), or cap inputs within
    the sidebar's bounds and a positive cap schedule (app2.py),
    [delta_max >= 0] and a TVL trajectory whose values are numbers with
    [1 + alpha * tvl[t] > 0] (as every non-negative TVL gives when
    [alpha > 0]), the simulator returns [emission[t] >= 0] on every day. *)
Theorem emission_never_negative :
  (∀ (cfg : App.Config) (traj : float64 → float64),
     (0 < App.cap cfg)%R → (0 <= delta_max cfg)%R →
     positive_damping cfg traj →
     ∃ tvl em ms,
       App.calculate_emissions cfg traj = Some (tvl, em, ms) ∧
       length em = days cfg ∧ emissions_nonneg em) ∧
  (∀ (cfg : App2.Config) (traj : float64 → float64),
     cap_inputs_in_range cfg →
     positive_schedule (App2.calculate_hard_cap cfg (epochs cfg)) →
     (0 <= delta_max cfg)%R → positive_damping cfg traj →
     ∃ tvl em ms caps,
       App2.calculate_emissions cfg traj = Some (tvl, em, ms, caps) ∧
       length em = days cfg ∧ emissions_nonneg em).
Proof.
  split.
  - intros cfg traj Hcap Hdelta Htvl. rewrite App_run. eexists _, _, _.
    split; [done|]. split; [apply tabulate_length|].
    apply run_emissions_nonneg;
      [by apply App_cap_positive | by apply App_cap_monotone | done | done].
  - intros cfg traj Hrange Hpos Hdelta Htvl. rewrite App2_run.
    eexists _, _, _, _. split; [done|]. split; [apply tabulate_length|].
    apply run_emissions_nonneg;
      [by apply cap_on_positive | by apply cap_on_monotone | done | done].
Qed.

Lemma emission_never_negative_witness :
  (∃ tvl em ms,
     App.calculate_emissions scenario_A (increasing_tvl scenario_A)
     = Some (tvl, em, ms) ∧
     length em = days scenario_A ∧ emissions_nonneg em) ∧
  (∃ tvl em ms caps,
     App2.calculate_emissions default_growing (increasing_tvl default_growing)
     = Some (tvl, em, ms, caps) ∧
     length em = days default_growing ∧ emissions_nonneg em).
Proof.
  split.
  - apply (proj1 emission_never_negative scenario_A
             (increasing_tvl scenario_A)).
    + simpl. lra.
    + simpl. lra.
    + apply scenario_A_damping.
  - apply (proj2 emission_never_negative default_growing
             (increasing_tvl default_growing)).
    + apply default_growing_in_range.
    + apply default_growing_positive.
    + simpl. lra.
    + apply default_growing_damping.
Defined.

(** The run that refutes C2 as stated: the sidebar's defaults with
    [start_tvl = 1.0] and [period = 36], sinusoidal trajectory.  Up to
    day 18 the TVL is non-negative; on day 19 it is below
    [1.095 - 2e7/6], the damping factor is negative, and so is the
    emission. *)
Lemma emission_never_negative_counterexample :
  ∃ tvl em ms,
    App.calculate_emissions seasonal (sinusoidal_increasing_tvl seasonal)
    = Some (tvl, em, ms) ∧
    (∃ e, em !! 19 = Some (Fin e) ∧ (e < 0)%R) ∧
    ¬ emissions_nonneg em.
Proof.
  rewrite App_run. eexists _, _, _. split; [done|].
  assert (∃ e, App_emission_at seasonal (sinusoidal_increasing_tvl seasonal) 19
               = Fin e ∧ (e < 0)%R) as (e & He & Hneg).
  { unfold App_emission_at.
    apply (emission_negative_after _ _ _ _ 19) with
      (v := (1 * (1 + 0.005 * INR 19)
             + 2e7 * sin (2 * PI * INR 19 / INR 36))%R).
    - simpl. lra.
    - simpl. lra.
    - intros t Ht. rewrite seasonal_tvl. eexists. split; [done|].
      pose proof (sin_first_half t ltac:(lia)). pose proof (pos_INR t).
      cbn [alpha App.params seasonal]. set (s := sin _) in *. lra.
    - simpl. lra.
    - apply seasonal_tvl.
    - pose proof sin_day_19 as Hs. cbn [alpha App.params seasonal].
      set (s := sin _) in *.
      replace (INR 19) with 19%R by (rewrite INR_IZR_INZ; reflexivity).
      lra. }
  assert ((App_emission_at seasonal (sinusoidal_increasing_tvl seasonal)
             <$> seq 0 (days seasonal)) !! 19 = Some (Fin e)) as H19.
  { apply lookup_tabulate. split; [unfold days; simpl; lia|done]. }
  split; [by exists e|].
  intros Hnonneg. specialize (Hnonneg 19 _ H19). simpl in Hnonneg. lra.
Qed.

(** ** C3: a zero growth rate *)

(** C3 (the code at the failing input).  With cap growth enabled and
    [cap_growth_rate = 0.0], the lower bound of its widget,
    [calculate_hard_cap] returns NaN for every day instead of
    [initial_cap], and every emission of every trajectory is NaN. *)
Theorem zero_rate_cap_is_nan :
  App2.calculate_hard_cap zero_rate (epochs zero_rate)
  = full_like (epochs zero_rate) NaN ∧
  ∀ traj : float64 → float64,
    ∃ tvl ms,
      App2.calculate_emissions zero_rate traj
      = Some (tvl, full_like (epochs zero_rate) NaN, ms,
              full_like (epochs zero_rate) NaN).
Proof.
  assert (cap_on zero_rate <$> seq 0 (days zero_rate)
          = full_like (epochs zero_rate) NaN) as Hcaps.
  { apply tabulate_const; [apply length_epochs|].
    intros t _. by apply zero_rate_cap_on. }
  split; [by rewrite hard_cap_eq|].
  intros traj.
  assert (App2_emission_at zero_rate traj <$> seq 0 (days zero_rate)
          = full_like (epochs zero_rate) NaN) as Hem.
  { apply tabulate_const; [apply length_epochs|].
    intros t _. unfold App2_emission_at, emission_at.
    rewrite zero_rate_cap_on by done. apply e_actual_nan_cap. }
  rewrite App2_run, Hcaps, Hem. by eexists _, _.
Qed.

(** ** C4: the cumulative mint never decreases *)

(** C4 (as amended).  With a positive cap (app.py), or cap inputs within
    the sidebar's bounds and a positive cap schedule (app2.py),
    [delta_max >= 0] and a TVL trajectory whose values are numbers with
    [1 + alpha * tvl[t] > 0], the cumulative mint never decreases:
    [minted_cumulative[t] <= minted_cumulative[t+1]] whenever
    [t+1 < days]. *)
Theorem minted_non_decreasing :
  (∀ (cfg : App.Config) (traj : float64 → float64),
     (0 < App.cap cfg)%R → (0 <= delta_max cfg)%R →
     positive_damping cfg traj →
     ∃ tvl em ms,
       App.calculate_emissions cfg traj = Some (tvl, em, ms) ∧
       length ms = days cfg ∧ non_decreasing ms) ∧
  (∀ (cfg : App2.Config) (traj : float64 → float64),
     cap_inputs_in_range cfg →
     positive_schedule (App2.calculate_hard_cap cfg (epochs cfg)) →
     (0 <= delta_max cfg)%R → positive_damping cfg traj →
     ∃ tvl em ms caps,
       App2.calculate_emissions cfg traj = Some (tvl, em, ms, caps) ∧
       length ms = days cfg ∧ non_decreasing ms).
Proof.
  split.
  - intros cfg traj Hcap Hdelta Htvl. rewrite App_run. eexists _, _, _.
    split; [done|]. split; [apply tabulate_length|].
    apply run_non_decreasing;
      [by apply App_cap_positive | by apply App_cap_monotone | done | done].
  - intros cfg traj Hrange Hpos Hdelta Htvl. rewrite App2_run.
    eexists _, _, _, _. split; [done|]. split; [apply tabulate_length|].
    apply run_non_decreasing;
      [by apply cap_on_positive | by apply cap_on_monotone | done | done].
Qed.

Lemma minted_non_decreasing_witness :
  (∃ tvl em ms,
     App.calculate_emissions scenario_A (increasing_tvl scenario_A)
     = Some (tvl, em, ms) ∧
     length ms = days scenario_A ∧ non_decreasing ms) ∧
  (∃ tvl em ms caps,
     App2.calculate_emissions default_growing (increasing_tvl default_growing)
     = Some (tvl, em, ms, caps) ∧
     length ms = days default_growing ∧ non_decreasing ms).
Proof.
  split.
  - apply (proj1 minted_non_decreasing scenario_A (increasing_tvl scenario_A)).
    + simpl. lra.
    + simpl. lra.
    + apply scenario_A_damping.
  - apply (proj2 minted_non_decreasing default_growing
             (increasing_tvl default_growing)).
    + apply default_growing_in_range.
    + apply default_growing_positive.
    + simpl. lra.
    + apply default_growing_damping.
Defined.

Lemma minted_non_decreasing_counterexample :
  ∃ tvl em ms,
    App.calculate_emissions small sunk_tvl = Some (tvl, em, ms) ∧
    ms !! 0 = Some (Fin 0) ∧ ms !! 1 = Some (Fin (-10)) ∧
    ¬ non_decreasing ms.
Proof.
  rewrite App_run. eexists _, _, _. split; [done|].
  destruct small_sunk_day0 as [_ Hm1].
  assert ((App_minted_at small sunk_tvl <$> seq 0 (days small)) !! 0
          = Some (Fin 0)) as H0.
  { apply lookup_tabulate. rewrite small_days. split; [lia|done]. }
  assert ((App_minted_at small sunk_tvl <$> seq 0 (days small)) !! 1
          = Some (Fin (-10))) as H1.
  { apply lookup_tabulate. rewrite small_days. split; [lia|done]. }
  split; [done|]. split; [done|]. intros Hmono.
  specialize (Hmono 0 _ _ H0 H1). simpl in Hmono. lra.
Qed.

(** ** C5: the shape of the growing cap *)

(** C5 (as amended).  In growing-cap mode with [rate > 0] and
    [max_cap >= initial_cap], on the days of the grid: [cap(0)] is
    [initial_cap], the cap never decreases, [initial_cap <= cap(t)] and
    [cap(t) <= max_cap]; it is strictly below [max_cap] when
    [max_cap > initial_cap]. *)
Theorem growing_cap_bounds (cfg : App2.Config) :
  App2.cap_growth_enabled cfg = true →
  (0 < App2.cap_growth_rate cfg)%R →
  (App2.initial_cap cfg <= App2.max_cap cfg)%R →
  length (App2.calculate_hard_cap cfg (epochs cfg)) = days cfg ∧
  growing_cap_shape (App2.initial_cap cfg < App2.max_cap cfg)%R cfg
    (App2.calculate_hard_cap cfg (epochs cfg)).
Proof.
  intros Hen Hrate Hmax. rewrite hard_cap_eq.
  split; [apply tabulate_length|].
  assert (∀ t, t < days cfg → cap_on cfg t = Fin (cap_real cfg t)) as Hcap.
  { intros t Ht. unfold cap_on. rewrite Hen. simpl.
    apply growing_cap_fin; [done|lia]. }
  split; [|split].
  - intros Hdays. apply lookup_tabulate. split; [done|].
    rewrite Hcap, cap_real_0 by done. done.
  - intros t t' c c' Hle [Ht ->]%lookup_tabulate [Ht' ->]%lookup_tabulate.
    rewrite !Hcap by done. simpl. apply cap_real_monotone; (done || lia).
  - intros t c [Ht ->]%lookup_tabulate. rewrite Hcap by done.
    split; [|split].
    + simpl. apply cap_real_ge_initial; (done || lia).
    + simpl. apply cap_real_le_max; (done || lia).
    + intros Hstrict. apply lt_fin. apply cap_real_lt_max; (done || lia).
Qed.

Lemma growing_cap_bounds_witness :
  length (App2.calculate_hard_cap scenario_C (epochs scenario_C))
  = days scenario_C ∧
  growing_cap_shape (App2.initial_cap scenario_C < App2.max_cap scenario_C)%R
    scenario_C (App2.calculate_hard_cap scenario_C (epochs scenario_C)).
Proof.
  apply (growing_cap_bounds scenario_C).
  - reflexivity.
  - simpl. lra.
  - simpl. lra.
Defined.

Lemma growing_cap_bounds_counterexample :
  App2.cap_growth_enabled flat_growth = true ∧
  (0 < App2.cap_growth_rate flat_growth)%R ∧
  (App2.initial_cap flat_growth <= App2.max_cap flat_growth)%R ∧
  App2.calculate_hard_cap flat_growth (epochs flat_growth) !! 0
  = Some (Fin (App2.max_cap flat_growth)) ∧
  ¬ growing_cap_shape True flat_growth
      (App2.calculate_hard_cap flat_growth (epochs flat_growth)).
Proof.
  assert (App2.calculate_hard_cap flat_growth (epochs flat_growth) !! 0
          = Some (Fin (App2.max_cap flat_growth))) as H0.
  { rewrite lookup_hard_cap by (unfold days; simpl; lia).
    assert (0 < App2.cap_growth_rate flat_growth)%R as Hrate
      by (simpl; lra).
    assert (0 < days flat_growth) as Hdays by (unfold days; simpl; lia).
    unfold cap_on. simpl. by rewrite growing_cap_fin, cap_real_0. }
  repeat split; [simpl; lra | simpl; lra | done |].
  intros (_ & _ & Hbound).
  destruct (Hbound 0 _ H0) as (_ & _ & Hlt).
  specialize (Hlt I). apply lt_fin in Hlt. lra.
Qed.

(** ** C6: invalid configurations *)

(** C6 (as amended).  The core validates nothing: for every configuration
    and trajectory, valid or not, both simulators run all their days and
    return arrays of [days] entries; the bounds on the inputs are those of
    the sidebar widgets only. *)
Theorem simulators_never_reject :
  (∀ (cfg : App.Config) (traj : float64 → float64),
     ∃ tvl em ms,
       App.calculate_emissions cfg traj = Some (tvl, em, ms) ∧
       length tvl = days cfg ∧ length em = days cfg ∧
       length ms = days cfg) ∧
  (∀ (cfg : App2.Config) (traj : float64 → float64),
     ∃ tvl em ms caps,
       App2.calculate_emissions cfg traj = Some (tvl, em, ms, caps) ∧
       length tvl = days cfg ∧ length em = days cfg ∧
       length ms = days cfg ∧ length caps = days cfg).
Proof.
  split.
  - intros cfg traj. rewrite App_run. eexists _, _, _. split; [done|].
    rewrite length_fmap, length_epochs, !tabulate_length. done.
  - intros cfg traj. rewrite App2_run. eexists _, _, _, _. split; [done|].
    rewrite length_fmap, length_epochs, !tabulate_length. done.
Qed.

(** The run that refutes C6 as stated: [alpha = 0], [initial_cap = -5]
    and [max_cap = -10 < initial_cap] are accepted, and day 0 emits
    [min(10, -5 - 0) = -5]. *)
Lemma simulators_never_reject_counterexample :
  (alpha refused <= 0)%R ∧ (App2.initial_cap refused <= 0)%R ∧
  (App2.max_cap refused < App2.initial_cap refused)%R ∧
  invalid_config refused ∧
  ∃ tvl em ms caps,
    App2.calculate_emissions refused (increasing_tvl refused)
    = Some (tvl, em, ms, caps) ∧
    em !! 0 = Some (Fin (-5)).
Proof.
  repeat split; [simpl; lra | simpl; lra | simpl; lra | left; simpl; lra |].
  rewrite App2_run. eexists _, _, _, _. split; [done|].
  apply lookup_tabulate. split; [unfold days; simpl; lia|].
  destruct (first_day (delta_max refused) (alpha refused) (cap_on refused)
              (λ t, increasing_tvl refused (day t))
              (-5) (1 * (1 + 0.01 * 0))) as [He0 _];
    [reflexivity | reflexivity | lra | simpl; lra |].
  unfold App2_emission_at. rewrite He0. f_equal. simpl.
  unfold e_real, Rmin. destruct Rle_dec; lra.
Qed.

(** ** C7: scenario A *)

(** C7.  Scenario A with the linear trajectory: on day 0 the TVL is
    [50e6], the remaining fraction is [1], the damping factor is [1/501],
    the emission is [100e6/501] (between 199600 and 199601, below the
    headroom [cap - 0]), and [minted_cumulative[1]] is that emission. *)
Theorem scenario_A_day_0 :
  ∃ tvl em ms,
    App.calculate_emissions scenario_A (increasing_tvl scenario_A)
    = Some (tvl, em, ms) ∧
    tvl !! 0 = Some (Fin 50e6) ∧
    ms !! 0 = Some (Fin 0) ∧
    g_cap_of (Fin (App.cap scenario_A)) (Fin 0) = Fin 1 ∧
    f_tvl_of (alpha scenario_A) (Fin 50e6) = Fin (1 / 501) ∧
    e_t_of (delta_max scenario_A) (alpha scenario_A)
      (Fin (App.cap scenario_A)) (Fin 0) (Fin 50e6) = Fin (100e6 / 501) ∧
    em !! 0 = Some (Fin (100e6 / 501)) ∧
    (199600 < 100e6 / 501 < 199601)%R ∧
    (100e6 / 501 < App.cap scenario_A - 0)%R ∧
    ms !! 1 = Some (Fin (100e6 / 501)).
Proof.
  rewrite App_run. eexists _, _, _. split; [done|].
  assert (increasing_tvl scenario_A (day 0) = Fin 50e6) as Htvl.
  { unfold increasing_tvl, day. fin_arith. f_equal. simpl. lra. }
  destruct (first_day (delta_max scenario_A) (alpha scenario_A)
              (λ _, Fin (App.cap scenario_A))
              (λ t, increasing_tvl scenario_A (day t))
              2.5e9 50e6) as [He0 Hm1];
    [reflexivity | done | lra | simpl; lra |].
  assert (e_real (delta_max scenario_A) (alpha scenario_A) 2.5e9 0 50e6
          = (100e6 / 501)%R) as Hval.
  { simpl. unfold e_real, Rmin. destruct Rle_dec; lra. }
  rewrite Hval in He0, Hm1.
  assert (0 < days scenario_A ∧ 1 < days scenario_A) as [Hd0 Hd1]
    by (unfold days; simpl; lia).
  split; [by rewrite <- Htvl, list_lookup_fmap, lookup_epochs|].
  split; [by apply lookup_tabulate|].
  split.
  { unfold g_cap_of. simpl. rewrite div_fin by lra. fin_arith. f_equal. lra. }
  split.
  { unfold f_tvl_of. simpl. fin_arith. rewrite div_fin by lra. f_equal. lra. }
  split.
  { unfold e_t_of, g_cap_of, f_tvl_of. simpl.
    rewrite (div_fin 0) by lra. fin_arith. rewrite div_fin by lra.
    fin_arith. f_equal. lra. }
  split; [by apply lookup_tabulate|].
  split; [lra|].
  split; [simpl; lra|].
  by apply lookup_tabulate.
Qed.

(** ** C8: determinism *)

(** C8.  The outputs are a function of the configuration and of the
    trajectory's values on the time grid, and of nothing else: two
    invocations with the same configuration and trajectories that agree
    on every day return the same arrays. *)
Theorem same_inputs_same_outputs :
  (∀ (cfg : App.Config) (traj traj' : float64 → float64),
     (∀ t, t < days cfg → traj (day t) = traj' (day t)) →
     ∃ out,
       App.calculate_emissions cfg traj = Some out ∧
       App.calculate_emissions cfg traj' = Some out) ∧
  (∀ (cfg : App2.Config) (traj traj' : float64 → float64),
     (∀ t, t < days cfg → traj (day t) = traj' (day t)) →
     ∃ out,
       App2.calculate_emissions cfg traj = Some out ∧
       App2.calculate_emissions cfg traj' = Some out).
Proof.
  split.
  - intros cfg traj traj' Heq. rewrite !App_run. eexists. split; [done|].
    rewrite (tvl_values_ext cfg traj traj') by done.
    rewrite (tabulate_ext (App_emission_at cfg traj) (App_emission_at cfg traj')),
      (tabulate_ext (App_minted_at cfg traj) (App_minted_at cfg traj'));
      [done | |]; intros t Ht;
      by apply (recurrence_ext _ _ _ _ _ _ (days cfg)).
  - intros cfg traj traj' Heq. rewrite !App2_run. eexists. split; [done|].
    rewrite (tvl_values_ext cfg traj traj') by done.
    rewrite (tabulate_ext (App2_emission_at cfg traj) (App2_emission_at cfg traj')),
      (tabulate_ext (App2_minted_at cfg traj) (App2_minted_at cfg traj'));
      [done | |]; intros t Ht;
      by apply (recurrence_ext _ _ _ _ _ _ (days cfg)).
Qed.

Lemma same_inputs_same_outputs_witness :
  (∃ out,
     App.calculate_emissions scenario_A (increasing_tvl scenario_A) = Some out ∧
     App.calculate_emissions scenario_A
       (λ t, (Fin 50e6 * (Fin 1 + Fin 0.01 * t))%f64) = Some out) ∧
  (∃ out,
     App2.calculate_emissions scenario_C (exponential_tvl scenario_C)
     = Some out ∧
     App2.calculate_emissions scenario_C (exponential_tvl scenario_C)
     = Some out).
Proof.
  split.
  - apply (proj1 same_inputs_same_outputs scenario_A).
    intros t Ht. reflexivity.
  - apply (proj2 same_inputs_same_outputs scenario_C).
    intros t Ht. reflexivity.
Defined.

(** ** C9: growth disabled *)

(** C9.  With cap growth disabled, app2.py's simulator returns the
    [tvl], [emission] and [minted_cumulative] arrays of app.py's simulator
    run with [cap = initial_cap] and the same other inputs, and a cap
    array that is [initial_cap] on every day. *)
Theorem growth_disabled_matches_basic
    (cfg : App.Config) (cfg2 : App2.Config) (traj : float64 → float64) :
  App2.cap_growth_enabled cfg2 = false →
  App.cap cfg = App2.initial_cap cfg2 →
  App.params cfg = App2.params cfg2 →
  ∃ tvl em ms,
    App.calculate_emissions cfg traj = Some (tvl, em, ms) ∧
    App2.calculate_emissions cfg2 traj
    = Some (tvl, em, ms, full_like (epochs cfg2) (Fin (App2.initial_cap cfg2))).
Proof.
  intros Hoff Hcap Hparams. rewrite App_run, App2_run. eexists _, _, _.
  split; [done|]. rewrite full_like_epochs.
  unfold App_emission_at, App_minted_at, App2_emission_at, App2_minted_at,
    cap_on.
  rewrite Hoff, Hcap, Hparams. done.
Qed.

Lemma growth_disabled_matches_basic_witness :
  ∃ tvl em ms,
    App.calculate_emissions
      (App.MkConfig 2.5e9 default_params) (s_curve_tvl default_params)
    = Some (tvl, em, ms) ∧
    App2.calculate_emissions
      (App2.MkConfig 2.5e9 false 0.1 5e9 default_params)
      (s_curve_tvl default_params)
    = Some (tvl, em, ms, full_like (epochs default_params) (Fin 2.5e9)).
Proof.
  apply (growth_disabled_matches_basic
           (App.MkConfig 2.5e9 default_params)
           (App2.MkConfig 2.5e9 false 0.1 5e9 default_params)
           (s_curve_tvl default_params)); reflexivity.
Defined.

(** ** C10: at most delta_max a day *)

(** C10.  If [alpha > 0], [delta_max >= 0], the cap schedule is positive
    (a positive cap in app.py; in app2.py a positive schedule from cap
    inputs within the sidebar's bounds) and [tvl[t] >= 0] on every day,
    then the simulator returns [emission[t] <= delta_max] on every day. *)
Theorem emission_at_most_delta_max :
  (∀ (cfg : App.Config) (traj : float64 → float64),
     (0 < alpha cfg)%R → (0 <= delta_max cfg)%R → (0 < App.cap cfg)%R →
     nonneg_tvl cfg traj →
     ∃ tvl em ms,
       App.calculate_emissions cfg traj = Some (tvl, em, ms) ∧
       length em = days cfg ∧ emissions_at_most (delta_max cfg) em) ∧
  (∀ (cfg : App2.Config) (traj : float64 → float64),
     (0 < alpha cfg)%R → (0 <= delta_max cfg)%R →
     cap_inputs_in_range cfg →
     positive_schedule (App2.calculate_hard_cap cfg (epochs cfg)) →
     nonneg_tvl cfg traj →
     ∃ tvl em ms caps,
       App2.calculate_emissions cfg traj = Some (tvl, em, ms, caps) ∧
       length em = days cfg ∧ emissions_at_most (delta_max cfg) em).
Proof.
  assert (∀ (p : Params) traj, (0 < alpha p)%R → nonneg_tvl p traj →
            ∀ t, t < days p →
              ∃ v, traj (day t) = Fin v ∧ (1 <= 1 + alpha p * v)%R) as Hge.
  { intros p traj Ha Htvl t Ht. destruct (Htvl t Ht) as (v & Hv & Hv0).
    exists v. split; [done|nra]. }
  split.
  - intros cfg traj Ha Hdelta Hcap Htvl. rewrite App_run. eexists _, _, _.
    split; [done|]. split; [apply tabulate_length|].
    apply run_emissions_at_most;
      [by apply App_cap_positive | by apply App_cap_monotone | done
      | by apply nonneg_tvl_damping | by apply Hge].
  - intros cfg traj Ha Hdelta Hrange Hpos Htvl. rewrite App2_run.
    eexists _, _, _, _. split; [done|]. split; [apply tabulate_length|].
    apply run_emissions_at_most;
      [by apply cap_on_positive | by apply cap_on_monotone | done
      | by apply nonneg_tvl_damping | by apply Hge].
Qed.

Lemma emission_at_most_delta_max_witness :
  (∃ tvl em ms,
     App.calculate_emissions scenario_A (increasing_tvl scenario_A)
     = Some (tvl, em, ms) ∧
     length em = days scenario_A ∧
     emissions_at_most (delta_max scenario_A) em) ∧
  (∃ tvl em ms caps,
     App2.calculate_emissions default_growing (increasing_tvl default_growing)
     = Some (tvl, em, ms, caps) ∧
     length em = days default_growing ∧
     emissions_at_most (delta_max default_growing) em).
Proof.
  split.
  - apply (proj1 emission_at_most_delta_max scenario_A
             (increasing_tvl scenario_A)).
    + simpl. lra.
    + simpl. lra.
    + simpl. lra.
    + apply scenario_A_nonneg_tvl.
  - apply (proj2 emission_at_most_delta_max default_growing
             (increasing_tvl default_growing)).
    + simpl. lra.
    + simpl. lra.
    + apply default_growing_in_range.
    + apply default_growing_positive.
    + apply default_growing_nonneg_tvl.
Defined.

(** * Further properties of the code *)

(** ** The bookkeeping of the loop *)

Lemma tvl_values_tabulate p (traj : float64 → float64) :
  traj <$> epochs p = (λ t, traj (day t)) <$> seq 0 (days p).
Proof. unfold epochs. by rewrite <- list_fmap_compose. Qed.

Lemma take_tabulate {A : Type} (f : nat → A) n t :
  t ≤ n → take t (f <$> seq 0 n) = f <$> seq 0 t.
Proof.
  intros Ht. rewrite <- fmap_take, take_seq. by replace (t `min` n) with t by lia.
Qed.

Lemma minted_prefix_sum delta alph capf tvlf t :
  minted_at delta alph capf tvlf t
  = sum_f64 (emission_at delta alph capf tvlf <$> seq 0 t).
Proof.
  unfold sum_f64. induction t as [|t IH]; [done|].
  rewrite seq_S, fmap_app, fold_left_app, <- IH. reflexivity.
Qed.

Lemma run_cumulative delta alph capf tvlf n :
  cumulative (emission_at delta alph capf tvlf <$> seq 0 n)
             (minted_at delta alph capf tvlf <$> seq 0 n).
Proof.
  intros t m [Ht ->]%lookup_tabulate.
  rewrite take_tabulate by lia. apply minted_prefix_sum.
Qed.

Lemma run_follows_formula delta alph capf tvlf n :
  follows_formula delta alph (capf <$> seq 0 n) (tvlf <$> seq 0 n)
    (emission_at delta alph capf tvlf <$> seq 0 n)
    (minted_at delta alph capf tvlf <$> seq 0 n).
Proof.
  intros t c v m e [_ ->]%lookup_tabulate [_ ->]%lookup_tabulate
    [_ ->]%lookup_tabulate [_ ->]%lookup_tabulate.
  reflexivity.
Qed.

(** X1.  In both scripts, for every configuration and trajectory, the
    returned arrays are tied together as the loop leaves them:
    [minted_so_far[t]] is the sum of [emissions[0..t-1]], and every
    [emissions[t]] is [min(delta_max * g_cap * f_tvl, cap[t] - minted_so_far[t])]
    computed from that day's entries. *)
Theorem emission_bookkeeping :
  (∀ (cfg : App.Config) (traj : float64 → float64),
     ∃ tvl em ms,
       App.calculate_emissions cfg traj = Some (tvl, em, ms) ∧
       cumulative em ms ∧
       follows_formula (delta_max cfg) (alpha cfg)
         (full_like (epochs cfg) (Fin (App.cap cfg))) tvl em ms) ∧
  (∀ (cfg : App2.Config) (traj : float64 → float64),
     ∃ tvl em ms caps,
       App2.calculate_emissions cfg traj = Some (tvl, em, ms, caps) ∧
       cumulative em ms ∧
       follows_formula (delta_max cfg) (alpha cfg) caps tvl em ms).
Proof.
  split.
  - intros cfg traj. rewrite App_run. eexists _, _, _. split; [done|].
    split; [apply run_cumulative|].
    rewrite full_like_epochs, tvl_values_tabulate. apply run_follows_formula.
  - intros cfg traj. rewrite App2_run. eexists _, _, _, _. split; [done|].
    split; [apply run_cumulative|].
    rewrite tvl_values_tabulate. apply run_follows_formula.
Qed.

(** ** The whole run's emission, and the damping bound *)

Section MoreRunInvariants.

Variables (delta alph : R) (capf tvlf : nat → float64) (n : nat).

Local Abbreviation minted := (minted_at delta alph capf tvlf <$> seq 0 n).
Local Abbreviation emitted := (emission_at delta alph capf tvlf <$> seq 0 n).

Hypothesis cap_positive : ∀ t, t < n → ∃ c, capf t = Fin c ∧ (0 < c)%R.

(** With [delta_max = 0] nothing is ever emitted; only the positivity of
    the caps and the regularity of the TVL are needed. *)
Lemma zero_delta_day :
  delta = 0%R →
  (∀ t, t < n → ∃ v, tvlf t = Fin v ∧ (1 + alph * v)%R ≠ 0%R) →
  ∀ t, t < n →
    minted_at delta alph capf tvlf t = Fin 0 ∧
    emission_at delta alph capf tvlf t = Fin 0.
Proof.
  intros Hd Htvl.
  assert (∀ t, t < n → minted_at delta alph capf tvlf t = Fin 0 →
            emission_at delta alph capf tvlf t = Fin 0) as Hstep.
  { intros t Ht Hm. unfold emission_at. rewrite Hm.
    destruct (cap_positive t Ht) as (c & -> & Hc).
    destruct (Htvl t Ht) as (v & -> & Hv).
    rewrite e_actual_fin by lra. f_equal. rewrite Hd.
    unfold e_real. rewrite !Rmult_0_l. apply Rmin_left. lra. }
  induction t as [|t IH]; intros Ht.
  - split; [done|]. by apply Hstep.
  - destruct IH as [IHm IHe]; [lia|].
    assert (minted_at delta alph capf tvlf (S t) = Fin 0) as Hm.
    { cbn [minted_at]. unfold emission_at in IHe. rewrite IHe, IHm.
      rewrite add_fin. f_equal. lra. }
    split; [done|]. by apply Hstep.
Qed.

Hypothesis cap_monotone : ∀ t, S t < n → (capf t <= capf (S t))%f64.

Lemma run_total_within :
  (∀ t, t < n → ∃ v, tvlf t = Fin v ∧ (1 + alph * v)%R ≠ 0%R) →
  total_within (capf <$> seq 0 n) emitted.
Proof.
  intros Htvl c [Hn ->]%last_tabulate.
  rewrite <- minted_prefix_sum.
  destruct (day_invariant delta alph capf tvlf n cap_positive cap_monotone
              Htvl (n - 1)) as (m & c & v & Hm & -> & _ & He & _ & _ & _);
    [lia|].
  replace n with (S (n - 1)) at 1 by lia. cbn [minted_at].
  unfold emission_at in He. rewrite He, Hm. simpl.
  pose proof (e_real_le_headroom delta alph c m v). lra.
Qed.

Lemma run_damped :
  (0 <= delta)%R →
  (∀ t, t < n → ∃ v, tvlf t = Fin v ∧ (0 < 1 + alph * v)%R) →
  damped delta alph (tvlf <$> seq 0 n) emitted.
Proof.
  intros Hd Htvl t v e [Ht ->]%lookup_tabulate [_ ->]%lookup_tabulate.
  destruct (day_in_range delta alph capf tvlf n cap_positive cap_monotone
              Hd Htvl t Ht) as (m & c & w & _ & -> & -> & Hc & [Hm0 Hmc] & Hw).
  rewrite mul_fin, add_fin, div_fin by lra. simpl.
  unfold e_real. eapply Rle_trans; [apply Rmin_l|].
  pose proof (remaining_fraction_bounds c m Hc Hmc) as Hg0.
  pose proof (remaining_fraction_le_1 c m Hc Hm0) as Hg1.
  assert (0 < / (1 + alph * w))%R as Hf by (by apply Rinv_0_lt_compat).
  unfold Rdiv. rewrite Rmult_1_l.
  apply Rmult_le_compat_r; [lra|]. nra.
Qed.

End MoreRunInvariants.

(** X2.  With [delta_max = 0], a positive cap schedule and a TVL whose
    values are numbers with [1 + alpha * tvl[t]] not zero, every emission
    is [0] and the cumulative mint stays at [0] (both scripts). *)
Theorem zero_delta_max_never_mints :
  (∀ (cfg : App.Config) (traj : float64 → float64),
     delta_max cfg = 0%R → (0 < App.cap cfg)%R → regular_tvl cfg traj →
     ∃ tvl,
       App.calculate_emissions cfg traj
       = Some (tvl, zeros_like (epochs cfg), zeros_like (epochs cfg))) ∧
  (∀ (cfg : App2.Config) (traj : float64 → float64),
     delta_max cfg = 0%R →
     positive_schedule (App2.calculate_hard_cap cfg (epochs cfg)) →
     regular_tvl cfg traj →
     ∃ tvl caps,
       App2.calculate_emissions cfg traj
       = Some (tvl, zeros_like (epochs cfg), zeros_like (epochs cfg), caps)).
Proof.
  split.
  - intros cfg traj Hd Hcap Htvl. rewrite App_run. eexists.
    unfold zeros_like, full_like.
    rewrite (tabulate_const (App_emission_at cfg traj) (epochs cfg) (Fin 0)
               (days cfg)), (tabulate_const (App_minted_at cfg traj)
               (epochs cfg) (Fin 0) (days cfg)); [done | | | |];
      try apply length_epochs; intros t Ht;
      by apply (zero_delta_day _ _ _ _ (days cfg) (App_cap_positive cfg Hcap)
                  Hd Htvl t Ht).
  - intros cfg traj Hd Hpos Htvl. rewrite App2_run. eexists _, _.
    unfold zeros_like, full_like.
    rewrite (tabulate_const (App2_emission_at cfg traj) (epochs cfg) (Fin 0)
               (days cfg)), (tabulate_const (App2_minted_at cfg traj)
               (epochs cfg) (Fin 0) (days cfg)); [done | | | |];
      try apply length_epochs; intros t Ht;
      by apply (zero_delta_day _ _ _ _ (days cfg) (cap_on_positive cfg Hpos)
                  Hd Htvl t Ht).
Qed.

Lemma idle_regular_tvl (p : Params) :
  (0 <= start_tvl p)%R → (0 <= growth_rate p)%R → (0 < alpha p)%R →
  regular_tvl p (increasing_tvl p).
Proof.
  intros Hs Hg Ha. apply positive_damping_regular, nonneg_tvl_damping; [done|].
  by apply increasing_tvl_nonneg.
Qed.

Lemma zero_delta_max_never_mints_witness :
  (∃ tvl,
     App.calculate_emissions idle (increasing_tvl idle)
     = Some (tvl, zeros_like (epochs idle), zeros_like (epochs idle))) ∧
  (∃ tvl caps,
     App2.calculate_emissions idle_growing (increasing_tvl idle_growing)
     = Some (tvl, zeros_like (epochs idle_growing),
             zeros_like (epochs idle_growing), caps)).
Proof.
  split.
  - apply (proj1 zero_delta_max_never_mints idle (increasing_tvl idle)).
    + reflexivity.
    + simpl. lra.
    + apply idle_regular_tvl; simpl; lra.
  - apply (proj2 zero_delta_max_never_mints idle_growing
             (increasing_tvl idle_growing)).
    + reflexivity.
    + apply schedule_positive; simpl; [lra|]. intros _. split; lra.
    + apply idle_regular_tvl; simpl; lra.
Defined.

(** X3.  The emissions of a whole run add up to at most the cap of the
    last day: with a positive cap (app.py), or cap inputs within the
    sidebar's bounds and a positive cap schedule (app2.py), and a TVL whose
    values are numbers with [1 + alpha * tvl[t]] not zero. *)
Theorem total_emission_within_cap :
  (∀ (cfg : App.Config) (traj : float64 → float64),
     (0 < App.cap cfg)%R → regular_tvl cfg traj →
     ∃ tvl em ms,
       App.calculate_emissions cfg traj = Some (tvl, em, ms) ∧
       total_within (full_like (epochs cfg) (Fin (App.cap cfg))) em) ∧
  (∀ (cfg : App2.Config) (traj : float64 → float64),
     cap_inputs_in_range cfg →
     positive_schedule (App2.calculate_hard_cap cfg (epochs cfg)) →
     regular_tvl cfg traj →
     ∃ tvl em ms caps,
       App2.calculate_emissions cfg traj = Some (tvl, em, ms, caps) ∧
       total_within caps em).
Proof.
  split.
  - intros cfg traj Hcap Htvl. rewrite App_run. eexists _, _, _.
    split; [done|]. rewrite full_like_epochs.
    apply run_total_within;
      [by apply App_cap_positive | by apply App_cap_monotone | done].
  - intros cfg traj Hrange Hpos Htvl. rewrite App2_run. eexists _, _, _, _.
    split; [done|].
    apply run_total_within;
      [by apply cap_on_positive | by apply cap_on_monotone | done].
Qed.

Lemma total_emission_within_cap_witness :
  (∃ tvl em ms,
     App.calculate_emissions scenario_A (increasing_tvl scenario_A)
     = Some (tvl, em, ms) ∧
     total_within (full_like (epochs scenario_A) (Fin (App.cap scenario_A)))
       em) ∧
  (∃ tvl em ms caps,
     App2.calculate_emissions default_growing (increasing_tvl default_growing)
     = Some (tvl, em, ms, caps) ∧
     total_within caps em).
Proof.
  split.
  - apply (proj1 total_emission_within_cap scenario_A
             (increasing_tvl scenario_A)).
    + simpl. lra.
    + apply positive_damping_regular, scenario_A_damping.
  - apply (proj2 total_emission_within_cap default_growing
             (increasing_tvl default_growing)).
    + apply default_growing_in_range.
    + apply default_growing_positive.
    + apply positive_damping_regular, default_growing_damping.
Defined.

(** X4.  Every day's emission is at most [delta_max / (1 + alpha * tvl[t])]:
    with a positive cap schedule (as above), [delta_max >= 0] and a TVL
    whose values are numbers with [1 + alpha * tvl[t] > 0].  The larger
    [alpha * tvl[t]], the smaller the emission. *)
Theorem emission_damped_by_tvl :
  (∀ (cfg : App.Config) (traj : float64 → float64),
     (0 < App.cap cfg)%R → (0 <= delta_max cfg)%R →
     positive_damping cfg traj →
     ∃ tvl em ms,
       App.calculate_emissions cfg traj = Some (tvl, em, ms) ∧
       damped (delta_max cfg) (alpha cfg) tvl em) ∧
  (∀ (cfg : App2.Config) (traj : float64 → float64),
     cap_inputs_in_range cfg →
     positive_schedule (App2.calculate_hard_cap cfg (epochs cfg)) →
     (0 <= delta_max cfg)%R → positive_damping cfg traj →
     ∃ tvl em ms caps,
       App2.calculate_emissions cfg traj = Some (tvl, em, ms, caps) ∧
       damped (delta_max cfg) (alpha cfg) tvl em).
Proof.
  split.
  - intros cfg traj Hcap Hd Htvl. rewrite App_run. eexists _, _, _.
    split; [done|]. rewrite tvl_values_tabulate.
    apply (run_damped _ _ (λ _, Fin (App.cap cfg)));
      [by apply App_cap_positive | by apply App_cap_monotone | done | done].
  - intros cfg traj Hrange Hpos Hd Htvl. rewrite App2_run.
    eexists _, _, _, _. split; [done|]. rewrite tvl_values_tabulate.
    apply (run_damped _ _ (cap_on cfg));
      [by apply cap_on_positive | by apply cap_on_monotone | done | done].
Qed.

Lemma emission_damped_by_tvl_witness :
  (∃ tvl em ms,
     App.calculate_emissions scenario_A (increasing_tvl scenario_A)
     = Some (tvl, em, ms) ∧
     damped (delta_max scenario_A) (alpha scenario_A) tvl em) ∧
  (∃ tvl em ms caps,
     App2.calculate_emissions default_growing (increasing_tvl default_growing)
     = Some (tvl, em, ms, caps) ∧
     damped (delta_max default_growing) (alpha default_growing) tvl em).
Proof.
  split.
  - apply (proj1 emission_damped_by_tvl scenario_A
             (increasing_tvl scenario_A)).
    + simpl. lra.
    + simpl. lra.
    + apply scenario_A_damping.
  - apply (proj2 emission_damped_by_tvl default_growing
             (increasing_tvl default_growing)).
    + apply default_growing_in_range.
    + apply default_growing_positive.
    + simpl. lra.
    + apply default_growing_damping.
Defined.

(** ** A constant cap: exhausted, never reached, and compared *)

Lemma provisional_fin delta alph c m v :
  c ≠ 0%R → (1 + alph * v)%R ≠ 0%R →
  (Fin delta * (Fin 1 - Fin m / Fin c) * (Fin 1 / (Fin 1 + Fin alph * Fin v)))%f64
  = Fin (delta * (1 - m / c) * (1 / (1 + alph * v))).
Proof.
  intros Hc Hd. rewrite (div_fin m c), mul_fin, add_fin, (div_fin 1) by done.
  by rewrite !sub_fin, !mul_fin.
Qed.

Lemma provisional_lt_headroom delta alph c m v :
  (0 < c → m < c → 0 <= delta < c → 1 <= 1 + alph * v →
   delta * (1 - m / c) * (1 / (1 + alph * v)) < c - m)%R.
Proof.
  intros Hc Hm [Hd0 Hdc] Hv.
  assert (0 < 1 - m / c)%R as Hg.
  { replace (1 - m / c)%R with ((c - m) * / c)%R by (field; lra).
    apply Rmult_lt_0_compat; [lra|]. by apply Rinv_0_lt_compat. }
  assert (0 < 1 / (1 + alph * v) <= 1)%R as [Hf0 Hf1].
  { unfold Rdiv. rewrite Rmult_1_l. split.
    - apply Rinv_0_lt_compat. lra.
    - rewrite <- Rinv_1. apply Rinv_le_contravar; lra. }
  replace (c - m)%R with (c * (1 - m / c))%R by (field; lra).
  assert (delta * (1 - m / c) < c * (1 - m / c))%R by nra.
  assert (0 <= delta * (1 - m / c))%R by nra.
  nra.
Qed.

Lemma e_real_positive delta alph c m v :
  (0 < c → m < c → 0 < delta → 0 < 1 + alph * v →
   0 < e_real delta alph c m v)%R.
Proof.
  intros Hc Hm Hd Hv. unfold e_real. apply Rmin_glb_lt; [|lra].
  assert (0 < 1 - m / c)%R as Hg.
  { replace (1 - m / c)%R with ((c - m) * / c)%R by (field; lra).
    apply Rmult_lt_0_compat; [lra|]. by apply Rinv_0_lt_compat. }
  assert (0 < 1 / (1 + alph * v))%R as Hf.
  { unfold Rdiv. rewrite Rmult_1_l. by apply Rinv_0_lt_compat. }
  apply Rmult_lt_0_compat; [apply Rmult_lt_0_compat|]; lra.
Qed.

(** The next cumulative mint grows with the current one and shrinks with
    the TVL. *)
Lemma step_monotone delta alph c m m' v v' :
  (0 < c → 0 <= delta → m' <= m → m <= c →
   1 <= 1 + alph * v → 1 + alph * v <= 1 + alph * v' →
   m' + e_real delta alph c m' v' <= m + e_real delta alph c m v)%R.
Proof.
  intros Hc Hd Hmm Hm Hv Hvv.
  assert (0 < / c)%R as Hic by (by apply Rinv_0_lt_compat).
  assert (0 < / (1 + alph * v'))%R as Hf'0 by (apply Rinv_0_lt_compat; lra).
  assert (/ (1 + alph * v') <= / (1 + alph * v))%R as Hff
    by (apply Rinv_le_contravar; lra).
  assert (/ (1 + alph * v) <= 1)%R as Hf1
    by (rewrite <- Rinv_1; apply Rinv_le_contravar; lra).
  pose proof (Rmin_r (delta * (1 - m' / c) * (1 / (1 + alph * v'))) (c - m'))
    as Hr'.
  pose proof (Rmin_l (delta * (1 - m' / c) * (1 / (1 + alph * v'))) (c - m'))
    as Hl'.
  fold (e_real delta alph c m' v') in Hr', Hl'.
  unfold e_real at 2. unfold Rmin. destruct Rle_dec as [Hle|Hgt]; [|lra].
  set (k := (delta * / (1 + alph * v) * / c)%R).
  set (k' := (delta * / (1 + alph * v') * / c)%R).
  assert (delta * (1 - m / c) * (1 / (1 + alph * v)) = k * (c - m))%R as Ha
    by (unfold k; field; lra).
  assert (delta * (1 - m' / c) * (1 / (1 + alph * v')) = k' * (c - m'))%R as Ha'
    by (unfold k'; field; lra).
  rewrite Ha in *. rewrite Ha' in *.
  assert (0 <= k')%R as Hk'0.
  { unfold k'. apply Rmult_le_pos; [apply Rmult_le_pos|]; lra. }
  assert (k' <= k)%R as Hkk.
  { unfold k, k'. apply Rmult_le_compat_r; [lra|].
    apply Rmult_le_compat_l; lra. }
  destruct (Req_dec m c) as [->|Hne].
  - lra.
  - assert (k <= 1)%R by nra.
    assert (0 <= (m - m') * (1 - k))%R by (apply Rmult_le_pos; lra).
    assert (0 <= (k - k') * (c - m'))%R by (apply Rmult_le_pos; lra).
    nra.
Qed.

Section ConstantCap.

Variables (delta alph c : R) (tvlf : nat → float64) (n : nat).

Local Abbreviation minted_at := (minted_at delta alph (λ _, Fin c) tvlf).
Local Abbreviation emission_at := (emission_at delta alph (λ _, Fin c) tvlf).

Hypothesis cap_positive : (0 < c)%R.

Lemma const_cap_positive : ∀ t, t < n → ∃ c', Fin c = Fin c' ∧ (0 < c')%R.
Proof. intros t _. by eexists. Qed.

Lemma const_cap_monotone : ∀ t, S t < n → (Fin c <= Fin c)%f64.
Proof. intros t _. simpl. lra. Qed.

(** Once the cumulative mint equals the cap it stays there and every
    later emission is [0]. *)
Lemma exhausted_stays t0 :
  (∀ t, t < n → ∃ v, tvlf t = Fin v ∧ (1 + alph * v)%R ≠ 0%R) →
  minted_at t0 = Fin c →
  ∀ k, t0 + k < n →
    minted_at (t0 + k) = Fin c ∧ emission_at (t0 + k) = Fin 0.
Proof.
  intros Htvl H0.
  assert (∀ t, t < n → minted_at t = Fin c → emission_at t = Fin 0) as Hstep.
  { intros t Ht Hm. unfold emission_at. rewrite Hm.
    destruct (Htvl t Ht) as (v & -> & Hv).
    rewrite e_actual_fin by lra. f_equal. unfold e_real.
    replace (1 - c / c)%R with 0%R by (field; lra).
    rewrite Rmult_0_r, Rmult_0_l, Rminus_diag. apply Rmin_left. lra. }
  induction k as [|k IH]; intros Hk.
  - rewrite Nat.add_0_r. split; [done|]. apply Hstep; [lia|done].
  - destruct IH as [IHm IHe]; [lia|].
    assert (minted_at (t0 + S k) = Fin c) as Hm.
    { replace (t0 + S k) with (S (t0 + k)) by lia. cbn [minted_at].
      unfold emission_at in IHe. rewrite IHe, IHm, add_fin. f_equal. lra. }
    split; [done|]. by apply Hstep.
Qed.

(** With [delta_max < cap] and a non-negative TVL: the mint stays below
    the cap and the emission is the provisional one. *)
Lemma below_cap_day t :
  (0 <= delta < c)%R →
  (∀ t, t < n → ∃ v, tvlf t = Fin v ∧ (1 <= 1 + alph * v)%R) →
  t < n →
  ∃ m v,
    minted_at t = Fin m ∧ tvlf t = Fin v ∧ (0 <= m < c)%R ∧
    (1 <= 1 + alph * v)%R ∧
    emission_at t = Fin (delta * (1 - m / c) * (1 / (1 + alph * v))).
Proof.
  intros Hd Htvl Ht.
  destruct (headroom_remains delta alph c tvlf n cap_positive Hd Htvl t)
    as (m & Hm & Hm0 & Hmc); [lia|].
  destruct (Htvl t Ht) as (v & Hv & Hv1).
  exists m, v. repeat split; try done.
  unfold emission_at. rewrite Hm, Hv, e_actual_fin by lra. f_equal.
  unfold e_real. apply Rmin_left. left.
  by apply provisional_lt_headroom.
Qed.

(** The headroom is the product of the daily factors. *)
Lemma headroom_closed_form t :
  (0 <= delta < c)%R →
  (∀ t, t < n → ∃ v, tvlf t = Fin v ∧ (1 <= 1 + alph * v)%R) →
  t ≤ n →
  minted_at t = Fin (c - headroom delta alph c (λ k, to_R (tvlf k)) t).
Proof.
  intros Hd Htvl. induction t as [|t IH]; intros Ht.
  - simpl. f_equal. lra.
  - destruct (below_cap_day t Hd Htvl) as (m & v & Hm & Hv & Hm0 & Hv1 & He);
      [lia|].
    rewrite IH in Hm by lia. injection Hm as Hm.
    cbn [minted_at headroom]. unfold emission_at in He.
    rewrite He, IH by lia. rewrite add_fin. f_equal.
    rewrite Hv. simpl. rewrite <- Hm. field. lra.
Qed.

End ConstantCap.

Section Comparison.

Variables (delta alph c : R) (tvlf tvlf' : nat → float64) (n : nat).

Hypothesis cap_positive : (0 < c)%R.
Hypothesis delta_nonneg : (0 <= delta)%R.
Hypothesis tvl_ordered :
  ∀ t, t < n → ∃ v v', tvlf t = Fin v ∧ tvlf' t = Fin v' ∧
                       (1 <= 1 + alph * v <= 1 + alph * v')%R.

Lemma higher_tvl_mints_less t :
  t ≤ n →
  ∃ m m',
    minted_at delta alph (λ _, Fin c) tvlf t = Fin m ∧
    minted_at delta alph (λ _, Fin c) tvlf' t = Fin m' ∧
    (m' <= m <= c)%R.
Proof.
  induction t as [|t IH]; intros Ht.
  - exists 0%R, 0%R. repeat split; (done || lra).
  - destruct IH as (m & m' & Hm & Hm' & Hmm & Hmc); [lia|].
    destruct (tvl_ordered t) as (v & v' & Hv & Hv' & Hv1 & Hvv); [lia|].
    exists (m + e_real delta alph c m v)%R, (m' + e_real delta alph c m' v')%R.
    cbn [minted_at]. rewrite Hm, Hm', Hv, Hv', !e_actual_fin by lra.
    repeat split; try done.
    + by apply step_monotone.
    + pose proof (e_real_le_headroom delta alph c m v). lra.
Qed.

End Comparison.

Lemma nonneg_tvl_ge_1 (p : Params) traj :
  (0 <= alpha p)%R → nonneg_tvl p traj →
  ∀ t, t < days p → ∃ v, traj (day t) = Fin v ∧ (1 <= 1 + alpha p * v)%R.
Proof.
  intros Ha H t Ht. destruct (H t Ht) as (v & Hv & Hv0).
  exists v. split; [done|nra].
Qed.

Lemma quick_regular : regular_tvl quick (increasing_tvl quick).
Proof. apply idle_regular_tvl; simpl; lra. Qed.

Lemma quick_day_0 :
  App_emission_at quick (increasing_tvl quick) 0 = Fin 1 ∧
  App_minted_at quick (increasing_tvl quick) 1 = Fin 1.
Proof.
  destruct (first_day (delta_max quick) (alpha quick)
              (λ _, Fin (App.cap quick)) (λ t, increasing_tvl quick (day t))
              1 (1 * (1 + 0.01 * 0))) as [He0 Hm1];
    [reflexivity | reflexivity | lra | simpl; lra |].
  unfold App_emission_at, App_minted_at. rewrite He0, Hm1.
  assert (e_real (delta_max quick) (alpha quick) 1 0 (1 * (1 + 0.01 * 0))
          = 1%R) as ->.
  { simpl. unfold e_real, Rmin. destruct Rle_dec; lra. }
  done.
Qed.

(** X5.  app.py: once [minted_so_far[t0]] equals the cap, it stays at the
    cap and every emission from day [t0] on is [0] (for a positive cap and
    a TVL whose values are numbers with [1 + alpha * tvl[t]] not zero). *)
Theorem exhausted_cap_is_absorbing
    (cfg : App.Config) (traj : float64 → float64)
    (tvl em ms : list float64) (t0 : nat) :
  App.calculate_emissions cfg traj = Some (tvl, em, ms) →
  (0 < App.cap cfg)%R → regular_tvl cfg traj →
  ms !! t0 = Some (Fin (App.cap cfg)) →
  exhausted_from t0 (App.cap cfg) em ms.
Proof.
  rewrite App_run. intros [= <- <- <-] Hcap Htvl [Ht0 H0]%lookup_tabulate.
  intros t Hle. split.
  - intros m [Ht ->]%lookup_tabulate.
    replace t with (t0 + (t - t0)) by lia.
    apply (exhausted_stays _ _ _ _ (days cfg) Hcap t0 Htvl); [done|lia].
  - intros e [Ht ->]%lookup_tabulate.
    replace t with (t0 + (t - t0)) by lia.
    apply (exhausted_stays _ _ _ _ (days cfg) Hcap t0 Htvl); [done|lia].
Qed.

Lemma exhausted_cap_is_absorbing_witness :
  exhausted_from 1 (App.cap quick)
    (App_emission_at quick (increasing_tvl quick) <$> seq 0 (days quick))
    (App_minted_at quick (increasing_tvl quick) <$> seq 0 (days quick)).
Proof.
  apply (exhausted_cap_is_absorbing quick (increasing_tvl quick) _ _ _ 1
           (App_run quick (increasing_tvl quick))).
  - simpl. lra.
  - apply quick_regular.
  - apply lookup_tabulate. split; [unfold days; simpl; lia|].
    symmetry. apply quick_day_0.
Defined.



(** X7.  app.py: with [0 < delta_max < cap], [alpha >= 0] and a
    non-negative TVL the cap is never reached: every [minted_so_far[t]]
    is in [[0, cap)], every emission is strictly positive, and the clamp
    never binds (each emission is [delta_max * g_cap * f_tvl] itself). *)
Theorem small_delta_never_reaches_cap
    (cfg : App.Config) (traj : float64 → float64) :
  (0 < delta_max cfg < App.cap cfg)%R → (0 <= alpha cfg)%R →
  nonneg_tvl cfg traj →
  ∃ tvl em ms,
    App.calculate_emissions cfg traj = Some (tvl, em, ms) ∧
    stays_below (App.cap cfg) ms ∧ all_positive em ∧
    unclamped (delta_max cfg) (alpha cfg)
      (full_like (epochs cfg) (Fin (App.cap cfg))) tvl em ms.
Proof.
  intros [Hd0 Hdc] Ha Htvl. rewrite App_run. eexists _, _, _. split; [done|].
  assert (0 < App.cap cfg)%R as Hcap by lra.
  pose proof (nonneg_tvl_ge_1 cfg traj Ha Htvl) as Hge.
  assert (0 <= delta_max cfg < App.cap cfg)%R as Hd by lra.
  split; [|split].
  - intros t m [Ht ->]%lookup_tabulate.
    destruct (below_cap_day _ _ _ _ (days cfg) Hcap t Hd Hge Ht)
      as (m & v & Hm & _ & Hm0 & _). by exists m.
  - intros t e [Ht ->]%lookup_tabulate.
    destruct (below_cap_day _ _ _ _ (days cfg) Hcap t Hd Hge Ht)
      as (m & v & Hm & Hv & Hm0 & Hv1 & He).
    unfold App_emission_at. rewrite He. apply lt_fin.
    assert (0 < 1 - m / App.cap cfg)%R as Hg.
    { replace (1 - m / App.cap cfg)%R with ((App.cap cfg - m) * / App.cap cfg)%R
        by (field; lra).
      apply Rmult_lt_0_compat; [lra|]. by apply Rinv_0_lt_compat. }
    assert (0 < 1 / (1 + alpha cfg * v))%R as Hf.
    { unfold Rdiv. rewrite Rmult_1_l. apply Rinv_0_lt_compat. lra. }
    apply Rmult_lt_0_compat; [apply Rmult_lt_0_compat|]; lra.
  - rewrite full_like_epochs, tvl_values_tabulate.
    intros t c v m e [Ht ->]%lookup_tabulate [_ ->]%lookup_tabulate
      [_ ->]%lookup_tabulate [_ ->]%lookup_tabulate.
    destruct (below_cap_day _ _ _ _ (days cfg) Hcap t Hd Hge Ht)
      as (m & v & Hm & Hv & Hm0 & Hv1 & He).
    unfold App_emission_at, App_minted_at. rewrite He, Hm, Hv.
    symmetry. apply provisional_fin; lra.
Qed.

Lemma small_delta_never_reaches_cap_witness :
  ∃ tvl em ms,
    App.calculate_emissions scenario_A (increasing_tvl scenario_A)
    = Some (tvl, em, ms) ∧
    stays_below (App.cap scenario_A) ms ∧ all_positive em ∧
    unclamped (delta_max scenario_A) (alpha scenario_A)
      (full_like (epochs scenario_A) (Fin (App.cap scenario_A))) tvl em ms.
Proof.
  apply (small_delta_never_reaches_cap scenario_A (increasing_tvl scenario_A)).
  - simpl. lra.
  - simpl. lra.
  - apply scenario_A_nonneg_tvl.
Defined.

(** X8.  app.py, under the same hypotheses (with [delta_max >= 0]): the
    headroom decays geometrically,
    [cap - minted_so_far[t]
     = cap * prod_{k<t} (1 - delta_max / (cap * (1 + alpha * tvl[k])))]. *)
Theorem headroom_is_a_product
    (cfg : App.Config) (traj : float64 → float64) :
  (0 <= delta_max cfg < App.cap cfg)%R → (0 <= alpha cfg)%R →
  nonneg_tvl cfg traj →
  ∃ tvl em ms,
    App.calculate_emissions cfg traj = Some (tvl, em, ms) ∧
    matches_headroom (delta_max cfg) (alpha cfg) (App.cap cfg)
      (λ k, to_R (traj (day k))) ms.
Proof.
  intros Hd Ha Htvl. rewrite App_run. eexists _, _, _. split; [done|].
  assert (0 < App.cap cfg)%R as Hcap by lra.
  intros t m [Ht ->]%lookup_tabulate.
  apply (headroom_closed_form _ _ _ _ (days cfg) Hcap t Hd); [|lia].
  by apply nonneg_tvl_ge_1.
Qed.

Lemma headroom_is_a_product_witness :
  ∃ tvl em ms,
    App.calculate_emissions scenario_A (increasing_tvl scenario_A)
    = Some (tvl, em, ms) ∧
    matches_headroom (delta_max scenario_A) (alpha scenario_A)
      (App.cap scenario_A)
      (λ k, to_R (increasing_tvl scenario_A (day k))) ms.
Proof.
  apply (headroom_is_a_product scenario_A (increasing_tvl scenario_A)).
  - simpl. lra.
  - simpl. lra.
  - apply scenario_A_nonneg_tvl.
Defined.

(** X9.  app.py: a trajectory that is at least as high on every day never
    mints more: for non-negative trajectories [traj <= traj'] day by day,
    [alpha >= 0], [delta_max >= 0] and a positive cap, the cumulative mint
    under [traj'] is at most the one under [traj] on every day. *)
Theorem higher_tvl_never_mints_more
    (cfg : App.Config) (traj traj' : float64 → float64) :
  (0 < App.cap cfg)%R → (0 <= delta_max cfg)%R → (0 <= alpha cfg)%R →
  nonneg_tvl cfg traj → nonneg_tvl cfg traj' →
  (∀ t, t < days cfg → (traj (day t) <= traj' (day t))%f64) →
  ∃ tvl em ms tvl' em' ms',
    App.calculate_emissions cfg traj = Some (tvl, em, ms) ∧
    App.calculate_emissions cfg traj' = Some (tvl', em', ms') ∧
    pointwise_le ms' ms.
Proof.
  intros Hcap Hd Ha Htvl Htvl' Hle. rewrite !App_run.
  eexists _, _, _, _, _, _. split; [done|]. split; [done|].
  intros t a b [Ht ->]%lookup_tabulate [_ ->]%lookup_tabulate.
  destruct (higher_tvl_mints_less (delta_max cfg) (alpha cfg) (App.cap cfg)
              (λ t, traj (day t)) (λ t, traj' (day t)) (days cfg) Hcap Hd)
    with (t := t) as (m & m' & Hm & Hm' & Hmm & _); [|lia|].
  - intros k Hk. destruct (Htvl k Hk) as (v & Hv & Hv0).
    destruct (Htvl' k Hk) as (v' & Hv' & Hv0').
    specialize (Hle k Hk). rewrite Hv, Hv' in Hle. simpl in Hle.
    exists v, v'. repeat split; try done; nra.
  - unfold App_minted_at. rewrite Hm, Hm'. done.
Qed.

Lemma lifted_tvl_nonneg (p : Params) :
  (0 <= start_tvl p)%R → (0 <= growth_rate p)%R →
  nonneg_tvl p (lifted_tvl p).
Proof.
  intros Hs Hg t Ht. destruct (increasing_tvl_nonneg p Hs Hg t Ht)
    as (v & Hv & Hv0).
  exists (v + 1)%R. unfold lifted_tvl. rewrite Hv. split; [done|lra].
Qed.

Lemma higher_tvl_never_mints_more_witness :
  ∃ tvl em ms tvl' em' ms',
    App.calculate_emissions scenario_A (increasing_tvl scenario_A)
    = Some (tvl, em, ms) ∧
    App.calculate_emissions scenario_A (lifted_tvl scenario_A)
    = Some (tvl', em', ms') ∧
    pointwise_le ms' ms.
Proof.
  apply (higher_tvl_never_mints_more scenario_A (increasing_tvl scenario_A)
           (lifted_tvl scenario_A)).
  - simpl. lra.
  - simpl. lra.
  - simpl. lra.
  - apply scenario_A_nonneg_tvl.
  - apply lifted_tvl_nonneg; simpl; lra.
  - intros t Ht. unfold lifted_tvl.
    destruct (scenario_A_nonneg_tvl t Ht) as (v & -> & _). simpl. lra.
Defined.

(** ** The growing cap: strict growth, shrinking increments, horizon *)

Section GrowingCapShape.

Variable cfg : App2.Config.

Hypothesis rate_positive : (0 < App2.cap_growth_rate cfg)%R.
Hypothesis some_days : 0 < days cfg.

Lemma growth_fraction_strict t t' :
  t < t' →
  (ln (1 + App2.cap_growth_rate cfg * INR t)
   / ln (1 + App2.cap_growth_rate cfg * INR (days cfg))
   < ln (1 + App2.cap_growth_rate cfg * INR t')
     / ln (1 + App2.cap_growth_rate cfg * INR (days cfg)))%R.
Proof.
  intros Hlt. unfold Rdiv. apply Rmult_lt_compat_r.
  - apply Rinv_0_lt_compat, log_horizon_positive; done.
  - apply ln_increasing.
    + pose proof (log_arg_ge_1 cfg rate_positive t). lra.
    + pose proof (lt_INR _ _ Hlt). nra.
Qed.

Lemma cap_real_strict t t' :
  (App2.initial_cap cfg < App2.max_cap cfg)%R → t < t' →
  (cap_real cfg t < cap_real cfg t')%R.
Proof.
  intros Hmax Hlt. rewrite !cap_real_unfold.
  pose proof (growth_fraction_strict t t' Hlt). nra.
Qed.

Lemma log_increments_shrink t :
  (ln (1 + App2.cap_growth_rate cfg * INR (S (S t)))
   - ln (1 + App2.cap_growth_rate cfg * INR (S t))
   <= ln (1 + App2.cap_growth_rate cfg * INR (S t))
      - ln (1 + App2.cap_growth_rate cfg * INR t))%R.
Proof.
  pose proof (log_arg_ge_1 cfg rate_positive t) as Ha.
  pose proof (log_arg_ge_1 cfg rate_positive (S t)) as Hb.
  pose proof (log_arg_ge_1 cfg rate_positive (S (S t))) as Hc.
  rewrite !S_INR in *.
  set (r := App2.cap_growth_rate cfg) in *. set (x := INR t) in *.
  assert (ln ((1 + r * x) * (1 + r * (x + 1 + 1)))
          <= ln ((1 + r * (x + 1)) * (1 + r * (x + 1))))%R as Hln.
  { apply ln_monotone; [apply Rmult_lt_0_compat; lra|]. nra. }
  rewrite !ln_mult in Hln by lra. lra.
Qed.

Lemma cap_real_increments_shrink t :
  (App2.initial_cap cfg <= App2.max_cap cfg)%R →
  (cap_real cfg (S (S t)) - cap_real cfg (S t)
   <= cap_real cfg (S t) - cap_real cfg t)%R.
Proof.
  intros Hmax. unfold cap_real.
  pose proof (log_horizon_positive cfg rate_positive some_days) as Hpos.
  pose proof (log_increments_shrink t) as Hshrink.
  set (L := ln (1 + App2.cap_growth_rate cfg * INR (days cfg))) in *.
  set (a := ln (1 + App2.cap_growth_rate cfg * INR t)) in *.
  set (b := ln (1 + App2.cap_growth_rate cfg * INR (S t))) in *.
  set (c := ln (1 + App2.cap_growth_rate cfg * INR (S (S t)))) in *.
  assert (0 < / L)%R as HiL by (by apply Rinv_0_lt_compat).
  unfold Rdiv.
  assert (0 <= (App2.max_cap cfg - App2.initial_cap cfg) * / L)%R
    by (apply Rmult_le_pos; lra).
  nra.
Qed.

Lemma cap_real_horizon : cap_real cfg (days cfg) = App2.max_cap cfg.
Proof.
  unfold cap_real.
  pose proof (log_horizon_positive cfg rate_positive some_days) as Hpos.
  field. lra.
Qed.

End GrowingCapShape.

(** X10.  app2.py, growing mode with [rate > 0] and
    [max_cap > initial_cap]: along the time grid the cap is strictly
    increasing and its daily increments never grow (logarithmic growth
    slows down). *)
Theorem growing_cap_slows_down (cfg : App2.Config) :
  App2.cap_growth_enabled cfg = true →
  (0 < App2.cap_growth_rate cfg)%R →
  (App2.initial_cap cfg < App2.max_cap cfg)%R →
  strictly_increasing (App2.calculate_hard_cap cfg (epochs cfg)) ∧
  increments_shrink (App2.calculate_hard_cap cfg (epochs cfg)).
Proof.
  intros Hen Hrate Hmax. rewrite hard_cap_eq.
  assert (∀ t, t < days cfg → cap_on cfg t = Fin (cap_real cfg t)) as Hcap.
  { intros t Ht. unfold cap_on. rewrite Hen. simpl.
    apply growing_cap_fin; [done|lia]. }
  split.
  - intros t t' a b Hlt [Ht ->]%lookup_tabulate [Ht' ->]%lookup_tabulate.
    rewrite !Hcap by done. apply lt_fin.
    apply cap_real_strict; (done || lia).
  - intros t a b c [Ht ->]%lookup_tabulate [Ht' ->]%lookup_tabulate
      [Ht'' ->]%lookup_tabulate.
    rewrite !Hcap by done. rewrite !sub_fin. simpl.
    apply cap_real_increments_shrink; (done || lia || lra).
Qed.

Lemma growing_cap_slows_down_witness :
  strictly_increasing (App2.calculate_hard_cap scenario_C (epochs scenario_C)) ∧
  increments_shrink (App2.calculate_hard_cap scenario_C (epochs scenario_C)).
Proof.
  apply (growing_cap_slows_down scenario_C).
  - reflexivity.
  - simpl. lra.
  - simpl. lra.
Defined.

(** X11.  app2.py, growing mode with [rate > 0] and at least one day:
    evaluated at [t = days], one day past the grid, the cap formula gives
    [max_cap] exactly (the normalisation by [log(1 + rate * days)]). *)
Theorem growing_cap_reaches_max_at_horizon (cfg : App2.Config) :
  App2.cap_growth_enabled cfg = true →
  (0 < App2.cap_growth_rate cfg)%R → 0 < days cfg →
  App2.calculate_hard_cap cfg [day (days cfg)] = [Fin (App2.max_cap cfg)].
Proof.
  intros Hen Hrate Hdays. unfold App2.calculate_hard_cap. rewrite Hen. simpl.
  by rewrite growing_cap_fin, cap_real_horizon.
Qed.

Lemma growing_cap_reaches_max_at_horizon_witness :
  App2.calculate_hard_cap scenario_C [day (days scenario_C)]
  = [Fin (App2.max_cap scenario_C)].
Proof.
  apply (growing_cap_reaches_max_at_horizon scenario_C).
  - reflexivity.
  - simpl. lra.
  - unfold days. simpl. lia.
Defined.

(** ** A growing cap is never exhausted *)

Section GrowingHeadroom.

Variables (delta alph : R) (capf tvlf : nat → float64) (n : nat).

Hypothesis cap_positive : ∀ t, t < n → ∃ c, capf t = Fin c ∧ (0 < c)%R.
Hypothesis cap_strict : ∀ t, S t < n → (capf t < capf (S t))%f64.
Hypothesis delta_positive : (0 < delta)%R.
Hypothesis damping_positive :
  ∀ t, t < n → ∃ v, tvlf t = Fin v ∧ (0 < 1 + alph * v)%R.

Lemma strict_cap_monotone : ∀ t, S t < n → (capf t <= capf (S t))%f64.
Proof.
  intros t Ht. pose proof (cap_strict t Ht) as Hlt.
  destruct (cap_positive t) as (c & Hc & _); [lia|].
  destruct (cap_positive (S t) Ht) as (c' & Hc' & _).
  rewrite Hc, Hc' in *. apply lt_fin in Hlt. simpl. lra.
Qed.

Lemma growing_headroom_day t :
  t < n →
  ∃ m c v,
    minted_at delta alph capf tvlf t = Fin m ∧ capf t = Fin c ∧
    tvlf t = Fin v ∧ (m < c)%R ∧
    emission_at delta alph capf tvlf t = Fin (e_real delta alph c m v) ∧
    (0 < e_real delta alph c m v)%R.
Proof.
  assert (∀ t, t < n → ∃ v, tvlf t = Fin v ∧ (1 + alph * v)%R ≠ 0%R) as Hreg.
  { intros k Hk. destruct (damping_positive k Hk) as (v & Hv & Hv0).
    exists v. split; [done|lra]. }
  intros Ht.
  destruct (day_invariant delta alph capf tvlf n cap_positive
              strict_cap_monotone Hreg t Ht)
    as (m & c & v & Hm & Hc & Hv & He & Hc0 & Hmc & _).
  destruct (damping_positive t Ht) as (w & Hw & Hw0).
  rewrite Hv in Hw. injection Hw as <-.
  assert (m < c)%R as Hlt.
  { destruct t as [|t].
    - simpl in Hm. injection Hm as <-. done.
    - destruct (day_invariant delta alph capf tvlf n cap_positive
                  strict_cap_monotone Hreg t)
        as (m1 & c1 & v1 & Hm1 & Hc1 & Hv1 & He1 & _ & _ & _); [lia|].
      pose proof (cap_strict t Ht) as Hstrict. rewrite Hc1, Hc in Hstrict.
      apply lt_fin in Hstrict.
      cbn [minted_at] in Hm. unfold emission_at in He1.
      rewrite He1, Hm1, add_fin in Hm. injection Hm as <-.
      pose proof (e_real_le_headroom delta alph c1 m1 v1). lra. }
  exists m, c, v. repeat split; try done.
  by apply e_real_positive.
Qed.

End GrowingHeadroom.

(** X12.  app2.py, growing mode with [rate > 0], [max_cap > initial_cap > 0],
    [delta_max > 0] and a TVL whose values are numbers with
    [1 + alpha * tvl[t] > 0]: every day's emission is strictly positive;
    unlike a constant cap, a growing cap is never exhausted for good. *)
Theorem growing_cap_always_emits
    (cfg : App2.Config) (traj : float64 → float64) :
  App2.cap_growth_enabled cfg = true →
  (0 < App2.cap_growth_rate cfg)%R →
  (0 < App2.initial_cap cfg < App2.max_cap cfg)%R →
  (0 < delta_max cfg)%R → positive_damping cfg traj →
  ∃ tvl em ms caps,
    App2.calculate_emissions cfg traj = Some (tvl, em, ms, caps) ∧
    all_positive em.
Proof.
  intros Hen Hrate [Hinit Hmax] Hd Htvl. rewrite App2_run.
  eexists _, _, _, _. split; [done|].
  assert (∀ t, t < days cfg → cap_on cfg t = Fin (cap_real cfg t)) as Hcap.
  { intros t Ht. unfold cap_on. rewrite Hen. simpl.
    apply growing_cap_fin; [done|lia]. }
  intros t e [Ht ->]%lookup_tabulate.
  destruct (growing_headroom_day (delta_max cfg) (alpha cfg) (cap_on cfg)
              (λ t, traj (day t)) (days cfg)) with (t := t)
    as (m & c & v & _ & _ & _ & _ & He & Hpos); try done.
  - intros k Hk. rewrite Hcap by done. eexists. split; [done|].
    pose proof (cap_real_ge_initial cfg Hrate ltac:(lia) k). lra.
  - intros k Hk. rewrite !Hcap by lia. apply lt_fin.
    apply cap_real_strict; (done || lia).
  - unfold App2_emission_at. rewrite He. by apply lt_fin.
Qed.

Lemma growing_cap_always_emits_witness :
  ∃ tvl em ms caps,
    App2.calculate_emissions default_growing (increasing_tvl default_growing)
    = Some (tvl, em, ms, caps) ∧
    all_positive em.
Proof.
  apply (growing_cap_always_emits default_growing
           (increasing_tvl default_growing)).
  - reflexivity.
  - simpl. lra.
  - simpl. lra.
  - simpl. lra.
  - apply default_growing_damping.
Defined.

(** ** The TVL trajectory functions *)

Lemma increasing_tvl_fin (p : Params) x :
  increasing_tvl p (Fin x) = Fin (start_tvl p * (1 + growth_rate p * x)).
Proof. reflexivity. Qed.

Lemma sinusoidal_tvl_fin (p : Params) x :
  0 < period p →
  sinusoidal_increasing_tvl p (Fin x)
  = Fin (sin_trend p x + amplitude p * sin (2 * PI * x / INR (period p))).
Proof.
  intros Hp. unfold sinusoidal_increasing_tvl, sin_trend. fin_arith.
  rewrite div_fin; [done|]. pose proof (lt_0_INR _ Hp). lra.
Qed.

Lemma exponential_tvl_fin (p : Params) x :
  exponential_tvl p (Fin x)
  = Fin (start_tvl p * exp (exp_growth_rate p * x)).
Proof. reflexivity. Qed.

Lemma s_curve_tvl_fin (p : Params) x :
  s_curve_tvl p (Fin x)
  = Fin (start_tvl p
         + (s_curve_max_tvl p - start_tvl p)
           / (1 + exp (- s_curve_steepness p
                       * (x - INR (s_curve_midpoint p))))).
Proof.
  unfold s_curve_tvl. fin_arith. simpl F64.exp. fin_arith.
  rewrite div_fin; [done|].
  pose proof (exp_pos (- s_curve_steepness p * (x - INR (s_curve_midpoint p)))).
  lra.
Qed.

(** X13.  [increasing_tvl] with [start > 0] and [growth_rate > 0]: it is
    [start] at [t = 0], strictly increasing, and rises by
    [start * growth_rate] from any day to the next. *)
Theorem increasing_tvl_shape (p : Params) :
  (0 < start_tvl p)%R → (0 < growth_rate p)%R →
  increasing_tvl p (Fin 0) = Fin (start_tvl p) ∧
  (∀ x y, (x < y)%R →
     (increasing_tvl p (Fin x) < increasing_tvl p (Fin y))%f64) ∧
  (∀ x, (increasing_tvl p (Fin (x + 1)) - increasing_tvl p (Fin x))%f64
        = Fin (start_tvl p * growth_rate p)).
Proof.
  intros Hs Hg. split; [|split].
  - rewrite increasing_tvl_fin. f_equal. ring.
  - intros x y Hxy. rewrite !increasing_tvl_fin. apply lt_fin.
    apply Rmult_lt_compat_l; [done|]. nra.
  - intros x. rewrite !increasing_tvl_fin, sub_fin. f_equal. ring.
Qed.

Lemma increasing_tvl_shape_witness :
  increasing_tvl default_params (Fin 0) = Fin (start_tvl default_params) ∧
  (∀ x y, (x < y)%R →
     (increasing_tvl default_params (Fin x)
      < increasing_tvl default_params (Fin y))%f64) ∧
  (∀ x, (increasing_tvl default_params (Fin (x + 1))
         - increasing_tvl default_params (Fin x))%f64
        = Fin (start_tvl default_params * growth_rate default_params)).
Proof.
  apply (increasing_tvl_shape default_params); simpl; lra.
Defined.

(** X14.  [sinusoidal_increasing_tvl] with [amplitude >= 0] and a positive
    period: it stays within [amplitude] of the linear trend
    [start * (1 + growth_rate * t)], and one full period later only the
    trend has moved, by [start * growth_rate * period]. *)
Theorem sinusoidal_tvl_shape (p : Params) :
  (0 <= amplitude p)%R → 0 < period p →
  (∀ x, (Fin (sin_trend p x - amplitude p)
         <= sinusoidal_increasing_tvl p (Fin x))%f64 ∧
        (sinusoidal_increasing_tvl p (Fin x)
         <= Fin (sin_trend p x + amplitude p))%f64) ∧
  (∀ x, (sinusoidal_increasing_tvl p (Fin (x + INR (period p)))
         - sinusoidal_increasing_tvl p (Fin x))%f64
        = Fin (start_tvl p * sin_growth_rate p * INR (period p))).
Proof.
  intros Ha Hp. pose proof (lt_0_INR _ Hp) as HP. split.
  - intros x. rewrite sinusoidal_tvl_fin by done. simpl.
    pose proof (SIN_bound (2 * PI * x / INR (period p))) as [Hlo Hhi].
    split; nra.
  - intros x. rewrite !sinusoidal_tvl_fin, sub_fin by done. f_equal.
    replace (2 * PI * (x + INR (period p)) / INR (period p))%R
      with (2 * PI * x / INR (period p) + 2 * INR 1 * PI)%R
      by (simpl; field; lra).
    rewrite sin_period. unfold sin_trend. ring.
Qed.

Lemma sinusoidal_tvl_shape_witness :
  (∀ x, (Fin (sin_trend default_params x - amplitude default_params)
         <= sinusoidal_increasing_tvl default_params (Fin x))%f64 ∧
        (sinusoidal_increasing_tvl default_params (Fin x)
         <= Fin (sin_trend default_params x + amplitude default_params))%f64) ∧
  (∀ x, (sinusoidal_increasing_tvl default_params
           (Fin (x + INR (period default_params)))
         - sinusoidal_increasing_tvl default_params (Fin x))%f64
        = Fin (start_tvl default_params * sin_growth_rate default_params
               * INR (period default_params))).
Proof.
  apply (sinusoidal_tvl_shape default_params).
  - simpl. lra.
  - simpl. lia.
Defined.

(** X15.  [exponential_tvl] with [start > 0] and [growth_rate > 0]: it is
    [start] at [t = 0], strictly increasing, and multiplied by the same
    factor [exp(growth_rate)] from any day to the next. *)
Theorem exponential_tvl_shape (p : Params) :
  (0 < start_tvl p)%R → (0 < exp_growth_rate p)%R →
  exponential_tvl p (Fin 0) = Fin (start_tvl p) ∧
  (∀ x y, (x < y)%R →
     (exponential_tvl p (Fin x) < exponential_tvl p (Fin y))%f64) ∧
  (∀ x, exponential_tvl p (Fin (x + 1))
        = (exponential_tvl p (Fin x) * Fin (exp (exp_growth_rate p)))%f64).
Proof.
  intros Hs Hg. split; [|split].
  - rewrite exponential_tvl_fin, Rmult_0_r, exp_0. f_equal. ring.
  - intros x y Hxy. rewrite !exponential_tvl_fin. apply lt_fin.
    apply Rmult_lt_compat_l; [done|]. apply exp_increasing. nra.
  - intros x. rewrite !exponential_tvl_fin, mul_fin. f_equal.
    rewrite Rmult_plus_distr_l, Rmult_1_r, exp_plus. ring.
Qed.

Lemma exponential_tvl_shape_witness :
  exponential_tvl default_params (Fin 0) = Fin (start_tvl default_params) ∧
  (∀ x y, (x < y)%R →
     (exponential_tvl default_params (Fin x)
      < exponential_tvl default_params (Fin y))%f64) ∧
  (∀ x, exponential_tvl default_params (Fin (x + 1))
        = (exponential_tvl default_params (Fin x)
           * Fin (exp (exp_growth_rate default_params)))%f64).
Proof.
  apply (exponential_tvl_shape default_params); simpl; lra.
Defined.

Lemma logistic_bounds u : (0 < / (1 + exp u) < 1)%R.
Proof.
  pose proof (exp_pos u) as He. split.
  - apply Rinv_0_lt_compat. lra.
  - rewrite <- Rinv_1 at 2. apply Rinv_lt_contravar; lra.
Qed.

Lemma logistic_symmetry u : (/ (1 + exp (- u)) + / (1 + exp u) = 1)%R.
Proof.
  rewrite exp_Ropp. pose proof (exp_pos u) as He. field. lra.
Qed.

(** X16.  [s_curve_tvl] with [start < max_tvl] and [steepness > 0]: it
    stays strictly between [start] and [max_tvl], is strictly increasing,
    is half way at the midpoint, and is symmetric about it:
    [tvl(mid + d) + tvl(mid - d) = start + max_tvl]. *)
Theorem s_curve_tvl_shape (p : Params) :
  (start_tvl p < s_curve_max_tvl p)%R → (0 < s_curve_steepness p)%R →
  (∀ x, (Fin (start_tvl p) < s_curve_tvl p (Fin x))%f64 ∧
        (s_curve_tvl p (Fin x) < Fin (s_curve_max_tvl p))%f64) ∧
  (∀ x y, (x < y)%R → (s_curve_tvl p (Fin x) < s_curve_tvl p (Fin y))%f64) ∧
  s_curve_tvl p (Fin (INR (s_curve_midpoint p)))
  = Fin ((start_tvl p + s_curve_max_tvl p) / 2) ∧
  (∀ d, (s_curve_tvl p (Fin (INR (s_curve_midpoint p) + d))
         + s_curve_tvl p (Fin (INR (s_curve_midpoint p) - d)))%f64
        = Fin (start_tvl p + s_curve_max_tvl p)).
Proof.
  intros Hmax Hk. split; [|split; [|split]].
  - intros x. rewrite s_curve_tvl_fin.
    pose proof (logistic_bounds
                  (- s_curve_steepness p * (x - INR (s_curve_midpoint p))))
      as [H0 H1].
    split; apply lt_fin; unfold Rdiv; nra.
  - intros x y Hxy. rewrite !s_curve_tvl_fin. apply lt_fin.
    apply Rplus_lt_compat_l. unfold Rdiv. apply Rmult_lt_compat_l; [lra|].
    pose proof (exp_pos (- s_curve_steepness p * (y - INR (s_curve_midpoint p)))).
    apply Rinv_lt_contravar.
    + apply Rmult_lt_0_compat;
        [|pose proof (exp_pos (- s_curve_steepness p
                               * (x - INR (s_curve_midpoint p))))]; lra.
    + apply Rplus_lt_compat_l, exp_increasing. nra.
  - rewrite s_curve_tvl_fin. f_equal.
    rewrite Rminus_diag, Rmult_0_r, exp_0. field.
  - intros d. rewrite !s_curve_tvl_fin, add_fin. f_equal.
    replace (INR (s_curve_midpoint p) + d - INR (s_curve_midpoint p))%R
      with d by ring.
    replace (INR (s_curve_midpoint p) - d - INR (s_curve_midpoint p))%R
      with (- d)%R by ring.
    replace (- s_curve_steepness p * - d)%R
      with (s_curve_steepness p * d)%R by ring.
    replace (- s_curve_steepness p * d)%R
      with (- (s_curve_steepness p * d))%R by ring.
    pose proof (logistic_symmetry (s_curve_steepness p * d)) as Hsym.
    unfold Rdiv. nra.
Qed.

Lemma s_curve_tvl_shape_witness :
  (∀ x, (Fin (start_tvl default_params)
         < s_curve_tvl default_params (Fin x))%f64 ∧
        (s_curve_tvl default_params (Fin x)
         < Fin (s_curve_max_tvl default_params))%f64) ∧
  (∀ x y, (x < y)%R →
     (s_curve_tvl default_params (Fin x)
      < s_curve_tvl default_params (Fin y))%f64) ∧
  s_curve_tvl default_params (Fin (INR (s_curve_midpoint default_params)))
  = Fin ((start_tvl default_params + s_curve_max_tvl default_params) / 2) ∧
  (∀ d, (s_curve_tvl default_params
           (Fin (INR (s_curve_midpoint default_params) + d))
         + s_curve_tvl default_params
             (Fin (INR (s_curve_midpoint default_params) - d)))%f64
        = Fin (start_tvl default_params + s_curve_max_tvl default_params)).
Proof.
  apply (s_curve_tvl_shape default_params); simpl; lra.
Defined.

(** ** The trajectories of the sidebar give healthy runs *)

Lemma exponential_tvl_nonneg (p : Params) :
  (0 <= start_tvl p)%R → nonneg_tvl p (exponential_tvl p).
Proof.
  intros Hs t Ht. eexists. split; [apply exponential_tvl_fin|].
  apply Rmult_le_pos; [done|]. left. apply exp_pos.
Qed.

Lemma s_curve_tvl_nonneg (p : Params) :
  (0 <= start_tvl p <= s_curve_max_tvl p)%R → nonneg_tvl p (s_curve_tvl p).
Proof.
  intros [Hs Hmax] t Ht. eexists. split; [apply s_curve_tvl_fin|].
  pose proof (logistic_bounds
                (- s_curve_steepness p * (INR t - INR (s_curve_midpoint p))))
    as [H0 H1].
  unfold Rdiv. nra.
Qed.

Lemma sinusoidal_tvl_nonneg (p : Params) :
  (0 <= amplitude p <= start_tvl p)%R → (0 <= sin_growth_rate p)%R →
  0 < period p →
  nonneg_tvl p (sinusoidal_increasing_tvl p).
Proof.
  intros [Ha Has] Hg Hp t Ht. eexists. split; [by apply sinusoidal_tvl_fin|].
  pose proof (SIN_bound (2 * PI * INR t / INR (period p))) as [Hlo _].
  pose proof (Rmult_le_pos _ _ Hg (pos_INR t)).
  unfold sin_trend. nra.
Qed.

Lemma run_healthy delta alph capf tvlf n :
  (∀ t, t < n → ∃ c, capf t = Fin c ∧ (0 < c)%R) →
  (∀ t, S t < n → (capf t <= capf (S t))%f64) →
  (0 <= delta)%R →
  (∀ t, t < n → ∃ v, tvlf t = Fin v ∧ (1 <= 1 + alph * v)%R) →
  healthy_run delta (capf <$> seq 0 n)
    (emission_at delta alph capf tvlf <$> seq 0 n)
    (minted_at delta alph capf tvlf <$> seq 0 n).
Proof.
  intros Hcap Hmono Hd Hge.
  assert (∀ t, t < n → ∃ v, tvlf t = Fin v ∧ (0 < 1 + alph * v)%R) as Hpos.
  { intros t Ht. destruct (Hge t Ht) as (v & Hv & Hv1).
    exists v. split; [done|lra]. }
  assert (∀ t, t < n → ∃ v, tvlf t = Fin v ∧ (1 + alph * v)%R ≠ 0%R) as Hreg.
  { intros t Ht. destruct (Hge t Ht) as (v & Hv & Hv1).
    exists v. split; [done|lra]. }
  split; [|split; [|split]].
  - by apply run_cap_respected.
  - by apply run_emissions_nonneg.
  - by apply run_emissions_at_most.
  - by apply run_non_decreasing.
Qed.

Lemma App_run_healthy (cfg : App.Config) traj :
  (0 < App.cap cfg)%R → (0 <= delta_max cfg)%R → (0 <= alpha cfg)%R →
  nonneg_tvl cfg traj →
  ∃ r, App.calculate_emissions cfg traj = Some r ∧ App_healthy cfg r.
Proof.
  intros Hcap Hd Ha Htvl. rewrite App_run. eexists. split; [done|].
  unfold App_healthy. simpl. rewrite full_like_epochs.
  apply run_healthy;
    [by apply App_cap_positive | by apply App_cap_monotone | done
    | by apply nonneg_tvl_ge_1].
Qed.

Lemma App2_run_healthy (cfg : App2.Config) traj :
  cap_inputs_in_range cfg →
  positive_schedule (App2.calculate_hard_cap cfg (epochs cfg)) →
  (0 <= delta_max cfg)%R → (0 <= alpha cfg)%R →
  nonneg_tvl cfg traj →
  ∃ r, App2.calculate_emissions cfg traj = Some r ∧ App2_healthy cfg r.
Proof.
  intros Hrange Hpos Hd Ha Htvl. rewrite App2_run. eexists. split; [done|].
  unfold App2_healthy. simpl.
  apply run_healthy;
    [by apply cap_on_positive | by apply cap_on_monotone | done
    | by apply nonneg_tvl_ge_1].
Qed.

(** X17.  app.py: with every input within the bounds of its widget, the
    loop over [trajectories] returns four results; those of the linear,
    exponential and S-curve trajectories keep all the invariants (cap
    respected, [0 <= emission <= delta_max], cumulative mint
    non-decreasing), and so does the sinusoidal one when
    [amplitude <= start_tvl]. *)
Theorem sidebar_trajectories_run_healthy (cfg : App.Config) :
  sidebar_bounds cfg → (1 <= App.cap cfg)%R →
  ∃ linear seasonal_run exponential s_curve,
    App_run_trajectories cfg
    = Some [linear; seasonal_run; exponential; s_curve] ∧
    App_healthy cfg linear ∧ App_healthy cfg exponential ∧
    App_healthy cfg s_curve ∧
    ((amplitude cfg <= start_tvl cfg)%R → App_healthy cfg seasonal_run).
Proof.
  intros (Hs & Hd & Ha & Hy & Hg & Hsg & Hamp & Hp & Heg & Hmid & Hk & Hmax)
    Hcap.
  destruct (App_run_healthy cfg (increasing_tvl cfg)) as (r1 & Hr1 & Hh1);
    [lra | lra | lra | apply increasing_tvl_nonneg; lra |].
  destruct (App_run_healthy cfg (exponential_tvl cfg)) as (r3 & Hr3 & Hh3);
    [lra | lra | lra | apply exponential_tvl_nonneg; lra |].
  destruct (App_run_healthy cfg (s_curve_tvl cfg)) as (r4 & Hr4 & Hh4);
    [lra | lra | lra | apply s_curve_tvl_nonneg; lra |].
  pose proof (App_run cfg (sinusoidal_increasing_tvl cfg)) as Hr2.
  eexists r1, _, r3, r4. split.
  { unfold App_run_trajectories, trajectories. simpl.
    rewrite Hr1, Hr2, Hr3, Hr4. reflexivity. }
  split; [done|]. split; [done|]. split; [done|].
  intros Has.
  destruct (App_run_healthy cfg (sinusoidal_increasing_tvl cfg))
    as (r2 & Hr2' & Hh2);
    [lra | lra | lra | apply sinusoidal_tvl_nonneg; (lra || lia) |].
  rewrite Hr2 in Hr2'. injection Hr2' as <-. apply Hh2.
Qed.

Lemma default_params_in_bounds : sidebar_bounds default_params.
Proof. unfold sidebar_bounds. simpl. repeat split; (lra || lia). Qed.

Lemma sidebar_trajectories_run_healthy_witness :
  ∃ linear seasonal_run exponential s_curve,
    App_run_trajectories default_basic
    = Some [linear; seasonal_run; exponential; s_curve] ∧
    App_healthy default_basic linear ∧ App_healthy default_basic exponential ∧
    App_healthy default_basic s_curve ∧
    App_healthy default_basic seasonal_run.
Proof.
  destruct (sidebar_trajectories_run_healthy default_basic)
    as (r1 & r2 & r3 & r4 & Hrun & H1 & H3 & H4 & H2).
  - apply default_params_in_bounds.
  - simpl. lra.
  - exists r1, r2, r3, r4.
    split; [exact Hrun|]. split; [exact H1|]. split; [exact H3|].
    split; [exact H4|]. apply H2. simpl. lra.
Defined.

(** X18.  app2.py: with every input within the bounds of its widget and,
    when cap growth is enabled, a growth rate that is not [0], the loop
    over [trajectories] returns four results; those of the linear,
    exponential and S-curve trajectories keep all the invariants against
    the day's cap, and so does the sinusoidal one when
    [amplitude <= start_tvl]. *)
Theorem sidebar_trajectories_run_healthy_growing (cfg : App2.Config) :
  sidebar_bounds cfg → (1 <= App2.initial_cap cfg)%R →
  cap_inputs_in_range cfg →
  (App2.cap_growth_enabled cfg = true → App2.cap_growth_rate cfg ≠ 0%R) →
  ∃ linear seasonal_run exponential s_curve,
    App2_run_trajectories cfg
    = Some [linear; seasonal_run; exponential; s_curve] ∧
    App2_healthy cfg linear ∧ App2_healthy cfg exponential ∧
    App2_healthy cfg s_curve ∧
    ((amplitude cfg <= start_tvl cfg)%R → App2_healthy cfg seasonal_run).
Proof.
  intros (Hs & Hd & Ha & Hy & Hg & Hsg & Hamp & Hp & Heg & Hmid & Hk & Hmax)
    Hinit Hrange Hrate.
  assert (positive_schedule (App2.calculate_hard_cap cfg (epochs cfg)))
    as Hpos.
  { apply schedule_positive; [lra|]. intros Hen.
    destruct Hrange as [Hr Hm]. specialize (Hrate Hen). split; lra. }
  destruct (App2_run_healthy cfg (increasing_tvl cfg)) as (r1 & Hr1 & Hh1);
    [done | done | lra | lra | apply increasing_tvl_nonneg; lra |].
  destruct (App2_run_healthy cfg (exponential_tvl cfg)) as (r3 & Hr3 & Hh3);
    [done | done | lra | lra | apply exponential_tvl_nonneg; lra |].
  destruct (App2_run_healthy cfg (s_curve_tvl cfg)) as (r4 & Hr4 & Hh4);
    [done | done | lra | lra | apply s_curve_tvl_nonneg; lra |].
  pose proof (App2_run cfg (sinusoidal_increasing_tvl cfg)) as Hr2.
  eexists r1, _, r3, r4. split.
  { unfold App2_run_trajectories, trajectories. simpl.
    rewrite Hr1, Hr2, Hr3, Hr4. reflexivity. }
  split; [done|]. split; [done|]. split; [done|].
  intros Has.
  destruct (App2_run_healthy cfg (sinusoidal_increasing_tvl cfg))
    as (r2 & Hr2' & Hh2);
    [done | done | lra | lra | apply sinusoidal_tvl_nonneg; (lra || lia) |].
  rewrite Hr2 in Hr2'. injection Hr2' as <-. apply Hh2.
Qed.

Lemma sidebar_trajectories_run_healthy_growing_witness :
  ∃ linear seasonal_run exponential s_curve,
    App2_run_trajectories default_growing
    = Some [linear; seasonal_run; exponential; s_curve] ∧
    App2_healthy default_growing linear ∧
    App2_healthy default_growing exponential ∧
    App2_healthy default_growing s_curve ∧
    App2_healthy default_growing seasonal_run.
Proof.
  destruct (sidebar_trajectories_run_healthy_growing default_growing)
    as (r1 & r2 & r3 & r4 & Hrun & H1 & H3 & H4 & H2).
  - apply default_params_in_bounds.
  - simpl. lra.
  - apply default_growing_in_range.
  - intros _. simpl. lra.
  - exists r1, r2, r3, r4.
    split; [exact Hrun|]. split; [exact H1|]. split; [exact H3|].
    split; [exact H4|]. apply H2. simpl. lra.
Defined.

(** ** The final cap, and a change of unit *)

(** X19.  app2.py, growing mode with [rate > 0], [max_cap > initial_cap]
    and at least one year: [final_cap = cap_values[-1]] is a number in
    [[initial_cap, max_cap)], never [max_cap] itself, and no day's cap is
    above it. *)
Theorem final_cap_below_max (cfg : App2.Config) :
  App2.cap_growth_enabled cfg = true →
  (0 < App2.cap_growth_rate cfg)%R →
  (App2.initial_cap cfg < App2.max_cap cfg)%R → 0 < years cfg →
  ∃ c,
    final_cap cfg = Some (Fin c) ∧
    (App2.initial_cap cfg <= c < App2.max_cap cfg)%R ∧
    ∀ t c', App2.calculate_hard_cap cfg (epochs cfg) !! t = Some c' →
            (c' <= Fin c)%f64.
Proof.
  intros Hen Hrate Hmax Hy.
  assert (0 < days cfg) as Hdays by (unfold days; lia).
  assert (∀ t, t < days cfg → cap_on cfg t = Fin (cap_real cfg t)) as Hcap.
  { intros t Ht. unfold cap_on. rewrite Hen. simpl.
    apply growing_cap_fin; [done|lia]. }
  exists (cap_real cfg (days cfg - 1)). unfold final_cap.
  rewrite hard_cap_eq. split; [|split].
  - apply last_tabulate. split; [done|]. symmetry. apply Hcap. lia.
  - split.
    + apply cap_real_ge_initial; (done || lra).
    + apply cap_real_lt_max; (done || lia).
  - intros t c' [Ht ->]%lookup_tabulate. rewrite Hcap by done. simpl.
    apply cap_real_monotone; (done || lia || lra).
Qed.

Lemma final_cap_below_max_witness :
  ∃ c,
    final_cap scenario_C = Some (Fin c) ∧
    (App2.initial_cap scenario_C <= c < App2.max_cap scenario_C)%R ∧
    ∀ t c', App2.calculate_hard_cap scenario_C (epochs scenario_C) !! t
            = Some c' →
            (c' <= Fin c)%f64.
Proof.
  apply (final_cap_below_max scenario_C).
  - reflexivity.
  - simpl. lra.
  - simpl. lra.
  - simpl. lia.
Defined.

Lemma e_real_rescale k delta alph c m v :
  (0 < k → c ≠ 0 → 1 + alph * v ≠ 0 →
   e_real (k * delta) alph (k * c) (k * m) v
   = k * e_real delta alph c m v)%R.
Proof.
  intros Hk Hc Hv. unfold e_real.
  replace (k * delta * (1 - k * m / (k * c)) * (1 / (1 + alph * v)))%R
    with (k * (delta * (1 - m / c) * (1 / (1 + alph * v))))%R
    by (field; repeat split; lra).
  replace (k * c - k * m)%R with (k * (c - m))%R by ring.
  unfold Rmin. destruct Rle_dec, Rle_dec; try done; nra.
Qed.

Lemma rescaled_day k delta alph c tvlf n :
  (0 < k)%R → c ≠ 0%R →
  (∀ t, t < n → ∃ v, tvlf t = Fin v ∧ (1 + alph * v)%R ≠ 0%R) →
  ∀ t, t < n →
    ∃ m e,
      minted_at delta alph (λ _, Fin c) tvlf t = Fin m ∧
      minted_at (k * delta) alph (λ _, Fin (k * c)) tvlf t = Fin (k * m) ∧
      emission_at delta alph (λ _, Fin c) tvlf t = Fin e ∧
      emission_at (k * delta) alph (λ _, Fin (k * c)) tvlf t = Fin (k * e).
Proof.
  intros Hk Hc Htvl.
  assert (∀ t m, t < n →
            minted_at delta alph (λ _, Fin c) tvlf t = Fin m →
            minted_at (k * delta) alph (λ _, Fin (k * c)) tvlf t
            = Fin (k * m) →
            ∃ e,
              emission_at delta alph (λ _, Fin c) tvlf t = Fin e ∧
              emission_at (k * delta) alph (λ _, Fin (k * c)) tvlf t
              = Fin (k * e)) as Hstep.
  { intros t m Ht Hm Hm'. destruct (Htvl t Ht) as (v & Hv & Hv0).
    exists (e_real delta alph c m v). unfold emission_at.
    rewrite Hm, Hm', Hv, !e_actual_fin by nra.
    split; [done|]. f_equal. by apply e_real_rescale. }
  induction t as [|t IH]; intros Ht.
  - destruct (Hstep 0 0%R Ht) as (e & He & He'); [done| |].
    { simpl. f_equal. ring. }
    exists 0%R, e. repeat split; try done. simpl. f_equal. ring.
  - destruct IH as (m & e & Hm & Hm' & He & He'); [lia|].
    assert (minted_at delta alph (λ _, Fin c) tvlf (S t) = Fin (m + e)) as Hn.
    { cbn [minted_at]. unfold emission_at in He. by rewrite He, Hm. }
    assert (minted_at (k * delta) alph (λ _, Fin (k * c)) tvlf (S t)
            = Fin (k * (m + e))) as Hn'.
    { cbn [minted_at]. unfold emission_at in He'. rewrite He', Hm', add_fin.
      f_equal. ring. }
    destruct (Hstep (S t) (m + e)%R Ht Hn Hn') as (e1 & He1 & He1').
    by exists (m + e)%R, e1.
Qed.

(** X20.  app.py: the simulator is homogeneous in the token unit.
    Multiplying both the cap and [delta_max] by [k > 0] multiplies every
    emission and every cumulative mint by [k] and leaves the TVL array as
    it is (for a cap that is not zero and a TVL whose values are numbers
    with [1 + alpha * tvl[t]] not zero). *)
Theorem rescaling_tokens_rescales_run
    (cfg : App.Config) (traj : float64 → float64) (k : R) :
  (0 < k)%R → App.cap cfg ≠ 0%R → regular_tvl cfg traj →
  ∃ tvl em ms,
    App.calculate_emissions cfg traj = Some (tvl, em, ms) ∧
    App.calculate_emissions (rescale k cfg) traj
    = Some (tvl, scaled k em, scaled k ms).
Proof.
  intros Hk Hcap Htvl. rewrite !App_run. eexists _, _, _. split; [done|].
  unfold scaled. rewrite <- !list_fmap_compose.
  change (days (rescale k cfg)) with (days cfg).
  change (epochs (rescale k cfg)) with (epochs cfg).
  rewrite (tabulate_ext (App_emission_at (rescale k cfg) traj)
             ((λ x, (Fin k * x)%f64) ∘ App_emission_at cfg traj)),
    (tabulate_ext (App_minted_at (rescale k cfg) traj)
       ((λ x, (Fin k * x)%f64) ∘ App_minted_at cfg traj)); [done | |];
    intros t Ht;
    destruct (rescaled_day k (delta_max cfg) (alpha cfg) (App.cap cfg)
                (λ t, traj (day t)) (days cfg) Hk Hcap Htvl t Ht)
      as (m & e & Hm & Hm' & He & He');
    unfold App_minted_at, App_emission_at, compose; simpl;
    rewrite ?Hm, ?He; simpl in Hm', He'; rewrite ?Hm', ?He'; done.
Qed.

Lemma rescaling_tokens_rescales_run_witness :
  ∃ tvl em ms,
    App.calculate_emissions scenario_A (increasing_tvl scenario_A)
    = Some (tvl, em, ms) ∧
    App.calculate_emissions (rescale 1e-6 scenario_A)
      (increasing_tvl scenario_A)
    = Some (tvl, scaled 1e-6 em, scaled 1e-6 ms).
Proof.
  apply (rescaling_tokens_rescales_run scenario_A (increasing_tvl scenario_A)
           1e-6).
  - lra.
  - simpl. lra.
  - apply positive_damping_regular, scenario_A_damping.
Defined.
